(** * Thread reconstruction and segmentation of [process_conversations.py]

    A shallow embedding of the two core functions of the module,
    [reconstruct_threads] and [split_segments], together with the Python
    primitives they rely on ([dict.get], truthiness, [or], [==], set
    membership, iteration, [sorted], [list.append]), and of their caller
    [process_file] with [save_segments], as the sequence of files a run
    writes.

    Modelling conventions.
    - A loaded JSON document is a [value]; a [dict] is an association list
      in insertion order (Python dictionaries iterate in that order).
    - A string is the sequence of its characters, one character of the
      Rocq string for each code point; the strings of the model have their
      code points below 256.
    - The numbers of a [value] are integers ([Z]).  [split_segments] is
      given on two kinds of times.  With integer times and exact
      arithmetic, for what depends on neither the rounding nor the order
      of floats: which messages the segments hold, where a role change
      cuts, what the call does to the caller's objects.  With binary64
      times (module [Binary64]), as Python has them, for the time-gap test
      and the order of the sort, where rounding, infinities and
      not-a-number count.
    - The two built-ins whose result the model does not compute, [str] on
      containers and [float] on strings, are parameters of the
      reconstruction section; in [Binary64] the built-in [sorted] is a
      parameter too.
    - An exception is a [Raise] result; a loop that would not finish within
      its fuel is [OutOfFuel].
    - [split_segments] is also given on a store of list and dictionary
      objects, where what the call does to the caller's objects can be
      stated. *)

From Stdlib Require Import ZArith String Ascii Bool Lia Arith DecimalString DecimalNat.
From Stdlib Require Import List Permutation Sorted SpecFloat.
Import ListNotations.

Set Warnings "-register-all".

Local Open Scope Z_scope.
Local Open Scope list_scope.

(* ===================================================================== *)
(** ** Python values                                                      *)
(* ===================================================================== *)

Inductive value : Type :=
| VNone
| VBool (b : bool)
| VNum (z : Z)
| VStr (s : string)
| VList (items : list value)
| VDict (kv : list (string * value)).

Inductive exn : Type :=
| AttributeError
| TypeError
| OverflowError
| ValueError.

Inductive result (A : Type) : Type :=
| Ok (a : A)
| Raise (e : exn)
| OutOfFuel.

Arguments Ok {A} a.
Arguments Raise {A} e.
Arguments OutOfFuel {A}.

Definition bind {A B : Type} (r : result A) (k : A -> result B) : result B :=
  match r with
  | Ok a => k a
  | Raise e => Raise e
  | OutOfFuel => OutOfFuel
  end.

Notation "x <- c ;; k" := (bind c (fun x => k))
  (at level 61, c at next level, right associativity).

(** [d.get(k)] on a dictionary proper: the first binding of [k]. *)
Fixpoint dict_get {A : Type} (k : string) (d : list (string * A)) : option A :=
  match d with
  | [] => None
  | (k', v) :: d' => if String.eqb k k' then Some v else dict_get k d'
  end.

(** [d[k] = v]: overwrite in place, or append a new binding. *)
Fixpoint dict_set {A : Type} (k : string) (v : A) (d : list (string * A))
  : list (string * A) :=
  match d with
  | [] => [(k, v)]
  | (k', v') :: d' =>
      if String.eqb k k' then (k, v) :: d' else (k', v') :: dict_set k v d'
  end.

(** Truth value testing ([if x], [not x], [x or y]). *)
Definition truthy (v : value) : bool :=
  match v with
  | VNone => false
  | VBool b => b
  | VNum z => negb (z =? 0)
  | VStr s => negb (String.eqb s EmptyString)
  | VList l => match l with [] => false | _ => true end
  | VDict d => match d with [] => false | _ => true end
  end.

Definition py_or (a b : value) : value := if truthy a then a else b.

(** [x.get(k, default)]: only dictionaries have a [get] attribute. *)
Definition py_get (x : value) (k : string) (default : value) : result value :=
  match x with
  | VDict d => Ok (match dict_get k d with Some v => v | None => default end)
  | _ => Raise AttributeError
  end.

(** [a == b].  Booleans compare equal to the integers 0 and 1; dictionaries
    compare by key, whatever the order of their bindings. *)
Fixpoint py_eq (a b : value) : bool :=
  match a, b with
  | VNone, VNone => true
  | VBool x, VBool y => Bool.eqb x y
  | VNum x, VNum y => x =? y
  | VBool x, VNum y => (if x then 1 else 0) =? y
  | VNum x, VBool y => x =? (if y then 1 else 0)
  | VStr x, VStr y => String.eqb x y
  | VList x, VList y =>
      (fix all2 (x y : list value) : bool :=
         match x, y with
         | [], [] => true
         | a' :: x', b' :: y' => py_eq a' b' && all2 x' y'
         | _, _ => false
         end) x y
  | VDict x, VDict y =>
      Nat.eqb (List.length x) (List.length y)
      && forallb (fun kv => match dict_get (fst kv) y with
                            | Some w => py_eq (snd kv) w
                            | None => false
                            end) x
  | _, _ => false
  end.

(** Lists and dictionaries are unhashable. *)
Definition hashable (v : value) : bool :=
  match v with
  | VList _ | VDict _ => false
  | _ => true
  end.

(** [x in s] for a set [s], kept as the list of its elements. *)
Definition set_mem (x : value) (s : list value) : result bool :=
  if hashable x then Ok (existsb (py_eq x) s) else Raise TypeError.

(** [for p in x]: the elements of a list, the characters of a string, the
    keys of a dictionary; anything else is not iterable. *)
Definition py_iter (x : value) : result (list value) :=
  match x with
  | VList l => Ok l
  | VStr s => Ok (map (fun c => VStr (String c EmptyString)) (list_ascii_of_string s))
  | VDict d => Ok (map (fun kv => VStr (fst kv)) d)
  | _ => Raise TypeError
  end.

(** [sep.join(l)]. *)
Fixpoint join (sep : string) (l : list string) : string :=
  match l with
  | [] => EmptyString
  | [s] => s
  | s :: l' => (s ++ sep ++ join sep l')%string
  end.

Definition newline : string := String (ascii_of_nat 10) EmptyString.

(* ===================================================================== *)
(** ** Messages and the segmenter                                         *)
(* ===================================================================== *)

(** The [{"role", "text", "time"}] dictionaries of a thread.  [role] is
    what [m.get("role")] returns, [VNone] when there is none; [time] is
    what [m.get("time")] returns, [None] or a number. *)
Record message : Type := mkMessage {
  role : value;
  text : string;
  time : option Z
}.

(** [m.get("time") or 0], the sort key. *)
Definition sort_key (m : message) : Z :=
  match time m with
  | Some t => if t =? 0 then 0 else t
  | None => 0
  end.

(** [sorted(l, key=...)] is stable: elements with equal keys keep their
    input order.  On totally ordered keys that fixes the result, which is
    computed here by stable insertion. *)
Fixpoint insert_by {A : Type} (key : A -> Z) (x : A) (l : list A) : list A :=
  match l with
  | [] => [x]
  | y :: l' => if key x <=? key y then x :: y :: l' else y :: insert_by key x l'
  end.

Fixpoint sorted {A : Type} (key : A -> Z) (l : list A) : list A :=
  match l with
  | [] => []
  | x :: l' => insert_by key x (sorted key l')
  end.

(** Lines 90-93: the time-gap test of a consecutive pair. *)
Definition time_gap (gap_seconds : Z) (prev cur : message) : bool :=
  match time prev, time cur with
  | Some prev_time, Some cur_time => cur_time - prev_time >? gap_seconds
  | _, _ => false
  end.

(** Line 95. *)
Definition role_change (prev cur : message) : bool :=
  negb (py_eq (role prev) (role cur)).

Definition boundary (gap_seconds : Z) (prev cur : message) : bool :=
  time_gap gap_seconds prev cur || role_change prev cur.

(** One iteration of the loop of lines 86-101 on the state
    [(segments, current)]. *)
Definition seg_step (gap_seconds : Z)
  (st : list (list message) * list message) (pc : message * message)
  : list (list message) * list message :=
  let (segments, current) := st in
  let (prev, cur) := pc in
  if boundary gap_seconds prev cur
  then (segments ++ [current], [cur])
  else (segments, current ++ [cur]).

Definition split_segments (messages : list message) (gap_seconds : Z)
  : list (list message) :=
  match messages with
  | [] => []
  | _ :: _ =>
      let messages := sorted sort_key messages in
      match messages with
      | [] => []
      | first :: rest =>
          let (segments, current) :=
            fold_left (seg_step gap_seconds) (combine messages rest) ([], [first]) in
          match current with
          | [] => segments
          | _ :: _ => segments ++ [current]
          end
      end
  end.

(** For each message position of the concatenated segments, whether a
    segment begins there. *)
Definition segment_starts {A : Type} (segs : list (list A)) : list bool :=
  flat_map (fun s => match s with
                     | [] => []
                     | _ :: s' => true :: map (fun _ => false) s'
                     end) segs.

(** Whether a segment begins at position [i] of the concatenated segments;
    [None] when there is no such position. *)
Definition new_segment_at {A : Type} (segs : list (list A)) (i : nat) : option bool :=
  nth_error (segment_starts segs) i.

Definition user : value := VStr "user".
Definition assistant : value := VStr "assistant".

(* ===================================================================== *)
(** ** Thread reconstruction                                              *)
(* ===================================================================== *)

(** The node dictionaries built by lines 37-52, with their six keys. *)
Record node : Type := mkNode {
  n_id : string;
  n_parent : value;
  n_children : value;
  n_role : value;
  n_text : string;
  n_time : option Z
}.

Definition is_none (v : value) : bool :=
  match v with VNone => true | _ => false end.

(** The least magnitude of an integer that no longer rounds to a finite
    double: halfway between the largest double and [2^1024]. *)
Definition float_overflow : Z := 2 ^ 1024 - 2 ^ 970.

(** [mapping.items()]. *)
Definition py_items (x : value) : result (list (string * value)) :=
  match x with
  | VDict d => Ok d
  | _ => Raise AttributeError
  end.

(** [nodes.get(cur)]: the keys of [nodes] are strings, no other hashable
    value is equal to one of them. *)
Definition nodes_get (cur : value) (nodes : list (string * node)) : option node :=
  match cur with
  | VStr k => dict_get k nodes
  | _ => None
  end.

Definition entry_of (n : node) : message :=
  mkMessage (n_role n) (n_text n) (n_time n).

Definition leaves (nodes : list (string * node)) : list string :=
  map fst (filter (fun kn => negb (truthy (n_children (snd kn)))) nodes).

(** The loop of lines 61-68 on the state [(cur, seen, path)]; [seen] lists
    the set's elements, the last one added first.  The result is the state
    in which the loop is left. *)
Fixpoint walk (nodes : list (string * node)) (fuel : nat)
  (cur : value) (seen : list value) (path : list message)
  : result (value * list value * list message) :=
  match fuel with
  | O => OutOfFuel
  | S fuel' =>
      if negb (truthy cur) then Ok (cur, seen, path)
      else
        visited <- set_mem cur seen ;;
        if (visited : bool) then Ok (cur, seen, path)
        else
          let seen := cur :: seen in
          match nodes_get cur nodes with
          | None => Ok (cur, seen, path)
          | Some n =>
              let path :=
                if truthy (n_role n) then path ++ [entry_of n] else path in
              walk nodes fuel' (n_parent n) seen path
          end
  end.

(** The loop of lines 57-71 over the leaves. *)
Fixpoint collect (nodes : list (string * node)) (fuel : nat)
  (ls : list string) (threads : list (list message))
  : result (list (list message)) :=
  match ls with
  | [] => Ok threads
  | leaf :: ls' =>
      st <- walk nodes fuel (VStr leaf) [] [] ;;
      let path := rev (snd st) in
      collect nodes fuel ls'
        (match path with [] => threads | _ :: _ => threads ++ [path] end)
  end.

Definition dict_size (x : value) : nat :=
  match x with
  | VDict d => List.length d
  | _ => O
  end.

Section Reconstruct.

(** [str(p)] for a list or a dictionary [p], and [float(s)] for a string
    [s], [None] when it raises [ValueError]. *)
Variable repr_container : value -> string.
Variable float_of_string : string -> option Z.

(** [str(p)]; for an integer, its decimal digits (an interpreter that
    limits the conversion raises [ValueError] beyond 4300 digits, which is
    not modelled). *)
Definition py_str (p : value) : string :=
  match p with
  | VNone => "None"
  | VBool true => "True"
  | VBool false => "False"
  | VNum z => NilEmpty.string_of_int (Z.to_int z)
  | VStr s => s
  | _ => repr_container p
  end.

(** Lines 47-51 for [ts] other than [None]: [float(ts)], with
    [TypeError] and [ValueError] turned into [None]. *)
Definition py_float (ts : value) : result (option Z) :=
  match ts with
  | VNone => Ok None
  | VBool b => Ok (Some (if b then 1 else 0))
  | VNum z => if Z.abs z <? float_overflow then Ok (Some z) else Raise OverflowError
  | VStr s => Ok (float_of_string s)
  | VList _ | VDict _ => Ok None
  end.

(** Lines 37-52: one node of the index. *)
Definition build_node (mid : string) (data : value) : result node :=
  parent <- py_get data "parent" VNone ;;
  children <- py_get data "children" VNone ;;
  let children := py_or children (VList []) in
  msg <- py_get data "message" VNone ;;
  let msg := py_or msg (VDict []) in
  author <- py_get msg "author" (VDict []) ;;
  role <- py_get author "role" VNone ;;
  content <- py_get msg "content" (VDict []) ;;
  parts <- py_get content "parts" VNone ;;
  let parts := py_or parts (VList []) in
  ps <- py_iter parts ;;
  let text := join newline (map py_str (filter (fun p => negb (is_none p)) ps)) in
  ts <- py_get msg "create_time" VNone ;;
  ts <- (if is_none ts then Ok None else py_float ts) ;;
  Ok (mkNode mid parent children role text ts).

(** The loop of lines 36-53. *)
Fixpoint build_nodes (items : list (string * value))
  (nodes : list (string * node)) : result (list (string * node)) :=
  match items with
  | [] => Ok nodes
  | (mid, data) :: items' =>
      n <- build_node mid data ;;
      build_nodes items' (dict_set mid n nodes)
  end.

Definition reconstruct_threads_fuel (fuel : nat) (mapping : value)
  : result (list (list message)) :=
  if negb (truthy mapping) then Ok []
  else
    items <- py_items mapping ;;
    nodes <- build_nodes items [] ;;
    collect nodes fuel (leaves nodes) [].

(** Each walk tests its loop condition at most once per node and once
    more to leave. *)
Definition reconstruct_threads (mapping : value) : result (list (list message)) :=
  reconstruct_threads_fuel (S (dict_size mapping)) mapping.

End Reconstruct.

(** Instances of the two built-ins for runs on concrete mappings whose
    parts hold no container and whose string timestamps are no numerals
    ([float] raises [ValueError] on them). *)
Definition no_repr (p : value) : string := EmptyString.
Definition no_float (s : string) : option Z := None.

Definition obj (kv : list (string * value)) : value := VDict kv.

Definition scenario1_mapping : value :=
  obj [("root", obj [("parent", VNone); ("children", VList [VStr "a"])]);
       ("a", obj [("parent", VStr "root"); ("children", VList []);
                  ("message", obj [("author", obj [("role", VStr "user")]);
                                   ("content", obj [("parts", VList [VStr "hi"])]);
                                   ("create_time", VNum 100)])])]%string.

Definition cycle_mapping : value :=
  obj [("A", obj [("parent", VStr "B");
                  ("message", obj [("author", obj [("role", VStr "user")])])]);
       ("B", obj [("parent", VStr "A");
                  ("message", obj [("author", obj [("role", VStr "assistant")])])])]%string.


(* ===================================================================== *)
(** ** The segments as a recursive function of the sorted list            *)
(* ===================================================================== *)

(** [chunks gap prev rest]: the messages of [rest] that stay in the segment
    of [prev], and the segments after it. *)
Fixpoint chunks (gap_seconds : Z) (prev : message) (rest : list message)
  : list message * list (list message) :=
  match rest with
  | [] => ([], [])
  | cur :: rest' =>
      let (s, more) := chunks gap_seconds cur rest' in
      if boundary gap_seconds prev cur
      then ([], (cur :: s) :: more)
      else (cur :: s, more)
  end.

Definition segments_of (gap_seconds : Z) (l : list message) : list (list message) :=
  match l with
  | [] => []
  | first :: rest =>
      let (s, more) := chunks gap_seconds first rest in (first :: s) :: more
  end.

(** What line 103-104 does to the final loop state. *)
Definition close_segments (st : list (list message) * list message)
  : list (list message) :=
  match snd st with
  | [] => fst st
  | _ :: _ => fst st ++ [snd st]
  end.

(** Non-decreasing order of the keys. *)
Definition le_by {A : Type} (key : A -> Z) (a b : A) : Prop := key a <= key b.

Definition key_le : message -> message -> Prop := le_by sort_key.

Definition boundary_pair (gap_seconds : Z) (pc : message * message) : bool :=
  boundary gap_seconds (fst pc) (snd pc).

(* ===================================================================== *)
(** ** The threads, as the specification words them                       *)
(* ===================================================================== *)

(** The nodes met from [cur] upwards: parent links are followed while the
    id is there, was not met before in this walk, and is in the index. *)
Fixpoint parent_chain (nodes : list (string * node)) (fuel : nat)
  (cur : value) (seen : list value) : list node :=
  match fuel with
  | O => []
  | S fuel' =>
      if truthy cur && hashable cur && negb (existsb (py_eq cur) seen)
      then match nodes_get cur nodes with
           | None => []
           | Some n => n :: parent_chain nodes fuel' (n_parent n) (cur :: seen)
           end
      else []
  end.

(** The thread of a leaf, root first: the entries of the nodes of its
    chain that pass [has_role]. *)
Definition thread_by (has_role : node -> bool)
  (nodes : list (string * node)) (leaf : string) : list message :=
  rev (map entry_of
         (filter has_role (parent_chain nodes (S (length nodes)) (VStr leaf) []))).

Definition is_nil {A : Type} (l : list A) : bool :=
  match l with [] => true | _ :: _ => false end.

Definition threads_by (has_role : node -> bool)
  (nodes : list (string * node)) : list (list message) :=
  filter (fun t => negb (is_nil t)) (map (thread_by has_role nodes) (leaves nodes)).

(** What the code tests: the role is truthy. *)
Definition role_truthy (n : node) : bool := truthy (n_role n).

(** What the specification says: the role is not absent. *)
Definition role_present (n : node) : bool := negb (is_none (n_role n)).

(** The state in which a walk may be left: no parent to go to, an id that
    is not in the index, or an id met before. *)
Definition halted (nodes : list (string * node)) (cur : value) (seen : list value)
  : Prop :=
  truthy cur = false \/ nodes_get cur nodes = None \/ In cur seen.

(** Lines 32-53: the index of a mapping. *)
Definition index_of (repr_container : value -> string)
  (float_of_string : string -> option Z) (mapping : value)
  : result (list (string * node)) :=
  if negb (truthy mapping) then Ok []
  else
    items <- py_items mapping ;;
    build_nodes repr_container float_of_string items [].

Definition author_null_mapping : value :=
  obj [("a", obj [("message", obj [("author", VNone)])])]%string.

Definition content_null_mapping : value :=
  obj [("a", obj [("message", obj [("content", VNone)])])]%string.

Definition huge_time_mapping : value :=
  obj [("a", obj [("message", obj [("create_time", VNum (10 ^ 400))])])]%string.

Definition list_parent_mapping : value :=
  obj [("a", obj [("parent", VList [VStr "b"])])]%string.

Definition empty_role_mapping : value :=
  obj [("a", obj [("message", obj [("author", obj [("role", VStr "")])])])]%string.

Definition empty_role_node : node :=
  mkNode "a" VNone (VList []) (VStr "") "" None.

(** The ids met so far in a walk are distinct ids of the index. *)
Definition seen_ok (nodes : list (string * node)) (seen : list value) : Prop :=
  NoDup seen
  /\ forall x, In x seen -> exists k, x = VStr k /\ dict_get k nodes <> None.

(** Sample messages. *)
Definition u (t : Z) : message := mkMessage user "" (Some t).
Definition a (t : Z) : message := mkMessage assistant "" (Some t).
Definition u_untimed : message := mkMessage user "" None.
Definition a_untimed : message := mkMessage assistant "" None.
Definition roleless (t : Z) : message := mkMessage VNone "" (Some t).

Definition branch_mapping : value :=
  obj [("r", obj [("children", VList [VStr "m"]);
                  ("message", obj [("author", obj [("role", VStr "user")]);
                                   ("content", obj [("parts", VList [VStr "q"; VNone; VNum 7])]);
                                   ("create_time", VStr "soon")])]);
       ("m", obj [("parent", VStr "r"); ("children", VList [VStr "x"; VStr "y"])]);
       ("x", obj [("parent", VStr "m"); ("children", VNone);
                  ("message", obj [("author", obj [("role", VStr "assistant")]);
                                   ("create_time", VNum 12)])]);
       ("y", obj [("parent", VStr "m");
                  ("message", VNone)])]%string.

Definition cycle_nodes : list (string * node) :=
  Eval vm_compute in
    match index_of no_repr no_float cycle_mapping with
    | Ok nodes => nodes
    | _ => []
    end.

(* ===================================================================== *)
(** ** The segmenter on the object store                                  *)
(* ===================================================================== *)

(** Python lists hold references.  The store keeps the objects a call of
    [split_segments] can reach or create: message dictionaries and list
    objects (of messages, or of segments); a reference is an index into
    the store. *)
Inductive object : Type :=
| ODict (m : message)
| OList (items : list nat).

Definition heap : Type := list object.

Definition read_list (h : heap) (l : nat) : option (list nat) :=
  match nth_error h l with
  | Some (OList items) => Some items
  | _ => None
  end.

Definition read_dict (h : heap) (r : nat) : option message :=
  match nth_error h r with
  | Some (ODict m) => Some m
  | _ => None
  end.

Fixpoint read_all {A : Type} (rd : nat -> option A) (refs : list nat)
  : option (list A) :=
  match refs with
  | [] => Some []
  | r :: refs' =>
      match rd r, read_all rd refs' with
      | Some x, Some xs => Some (x :: xs)
      | _, _ => None
      end
  end.

(** The messages a list object holds, and the segments a list of list
    objects holds. *)
Definition view_list (h : heap) (l : nat) : option (list message) :=
  match read_list h l with
  | Some items => read_all (read_dict h) items
  | None => None
  end.

Definition view_segments (h : heap) (l : nat) : option (list (list message)) :=
  match read_list h l with
  | Some segs => read_all (view_list h) segs
  | None => None
  end.

Fixpoint update (i : nat) (o : object) (h : heap) : heap :=
  match h, i with
  | [], _ => []
  | _ :: h', O => o :: h'
  | x :: h', S i' => x :: update i' o h'
  end.

(** Computations on the store; [None] is an access that Python's typing of
    the call excludes (a reference to nothing or to the wrong kind of
    object). *)
Definition st (A : Type) : Type := heap -> option (A * heap).

Definition ret {A : Type} (x : A) : st A := fun h => Some (x, h).

Definition bind_st {A B : Type} (c : st A) (k : A -> st B) : st B :=
  fun h => match c h with
           | Some (x, h') => k x h'
           | None => None
           end.

Notation "x <~ c ;; k" := (bind_st c (fun x => k))
  (at level 61, c at next level, right associativity).

Definition lift {A : Type} (rd : heap -> option A) : st A :=
  fun h => match rd h with
           | Some x => Some (x, h)
           | None => None
           end.

(** A new object, [[...]] or the result of [sorted]. *)
Definition alloc (o : object) : st nat := fun h => Some (length h, h ++ [o]).

(** [l.append(x)]. *)
Definition append (l x : nat) : st unit :=
  fun h => match read_list h l with
           | Some items => Some (tt, update l (OList (items ++ [x])) h)
           | None => None
           end.

Fixpoint fold_st {A S : Type} (f : S -> A -> st S) (l : list A) (s : S) : st S :=
  match l with
  | [] => ret s
  | x :: l' => s' <~ f s x ;; fold_st f l' s'
  end.

(** One iteration of the loop of lines 86-101; [segments] is the one list
    object of line 83, [current] the reference the name holds. *)
Definition seg_step_st (gap_seconds : Z) (segments current : nat) (pc : nat * nat)
  : st nat :=
  prev <~ lift (fun h => read_dict h (fst pc)) ;;
  cur <~ lift (fun h => read_dict h (snd pc)) ;;
  if boundary gap_seconds prev cur
  then _ <~ append segments current ;; alloc (OList [snd pc])
  else _ <~ append current (snd pc) ;; ret current.

(** [split_segments] on the store: [messages] is the caller's list, the
    result is the list of segments. *)
Definition split_segments_st (messages : nat) (gap_seconds : Z) : st nat :=
  items <~ lift (fun h => read_list h messages) ;;
  match items with
  | [] => alloc (OList [])
  | _ :: _ =>
      dicts <~ lift (fun h => read_all (read_dict h) items) ;;
      let ordered :=
        map snd (sorted (fun kr => sort_key (fst kr)) (combine dicts items)) in
      _ <~ alloc (OList ordered) ;;
      segments <~ alloc (OList []) ;;
      match ordered with
      | [] => ret segments
      | first :: rest =>
          current <~ alloc (OList [first]) ;;
          current <~ fold_st (seg_step_st gap_seconds segments)
                       (combine ordered rest) current ;;
          left <~ lift (fun h => read_list h current) ;;
          match left with
          | [] => ret segments
          | _ :: _ => _ <~ append segments current ;; ret segments
          end
      end
  end.

(** A caller's store: three messages and the list that holds them. *)
Definition sample_heap : heap :=
  [ODict (u 5); ODict (a 6); ODict (u 0); OList [0%nat; 1%nat; 2%nat]].

(** What holds between two iterations of the loop, in a store [hc] grown
    from the caller's [h0]: the caller's objects are as they were, the
    list objects of the call are new, distinct, and hold the segments and
    the current segment of the loop state. *)
Definition seg_inv (h0 : heap) (segments : nat) (hc : heap) (current : nat)
  (st : list (list message) * list message) : Prop :=
  (exists ext, hc = h0 ++ ext)
  /\ (length h0 <= segments)%nat
  /\ (length h0 <= current)%nat
  /\ segments <> current
  /\ exists srefs,
       read_list hc segments = Some srefs
       /\ Forall (fun s => (length h0 <= s)%nat /\ s <> current /\ s <> segments) srefs
       /\ read_all (view_list hc) srefs = Some (fst st)
       /\ view_list hc current = Some (snd st).

(** A pair of references and the pair of messages they denote. *)
Definition denotes (h : heap) (rp : nat * nat) (mp : message * message) : Prop :=
  read_dict h (fst rp) = Some (fst mp) /\ read_dict h (snd rp) = Some (snd mp).

(* ===================================================================== *)
(** ** Writing the segments: [save_segments] and [process_file]           *)
(* ===================================================================== *)

(** [str(n)] for a non-negative integer. *)
Definition dec (n : nat) : string := NilEmpty.string_of_uint (Nat.to_uint n).

Fixpoint zeros (k : nat) : string :=
  match k with
  | O => EmptyString
  | S k' => String "0" (zeros k')
  end.

(** [f"{n:0{w}d}"] for a non-negative integer: at least [w] digits, with
    zeros in front. *)
Definition pad (w n : nat) : string :=
  (zeros (w - String.length (dec n)) ++ dec n)%string.

(** Lines 111-114: the name of the file of a segment. *)
Definition segment_name (conv_index thread_index s_idx : nat) : string :=
  ("conv" ++ pad 3 conv_index
   ++ "_thread" ++ pad 2 thread_index
   ++ "_seg" ++ pad 2 s_idx ++ ".md")%string.

Definition starts_with_slash (s : string) : bool :=
  match s with
  | String c _ => Ascii.eqb c "/"
  | EmptyString => false
  end.

Fixpoint ends_with_slash (s : string) : bool :=
  match s with
  | EmptyString => false
  | String c EmptyString => Ascii.eqb c "/"
  | String _ s' => ends_with_slash s'
  end.

(** [os.path.join(a, b)] with the POSIX separator. *)
Definition path_join (a b : string) : string :=
  if starts_with_slash b then b
  else if is_nil (list_ascii_of_string a) || ends_with_slash a then (a ++ b)%string
  else (a ++ "/" ++ b)%string.

(** [enumerate(l)], counting from [i]. *)
Fixpoint enumerate_from {A : Type} (i : nat) (l : list A) : list (nat * A) :=
  match l with
  | [] => []
  | x :: l' => (i, x) :: enumerate_from (S i) l'
  end.

(** The module's global and the default value of [gap_seconds], which
    Python computes once, when the [def] of line 76 is executed. *)
Record module_state : Type := mkModule {
  GAP_SECONDS : Z;
  split_segments_default : Z
}.

(** Lines 5 and 76, executed in this order when the module is loaded. *)
Definition module_loaded : module_state :=
  let gap := 30 * 60 in mkModule gap gap.

(** Line 145: [globals()["GAP_SECONDS"] = ...] rebinds the global. *)
Definition set_gap (g : Z) (m : module_state) : module_state :=
  mkModule g (split_segments_default m).

(** The files after a sequence of writes: [open(name, "w")] replaces what
    the file held. *)
Definition files_after (writes : list (string * string)) : list (string * string) :=
  fold_left (fun fs w => dict_set (fst w) (snd w) fs) writes [].

(** [int(x)] for a float: the integer part, towards zero. *)
Definition py_int (x : spec_float) : result Z :=
  match x with
  | S754_nan => Raise ValueError
  | S754_infinity _ => Raise OverflowError
  | S754_zero _ => Ok 0
  | S754_finite s m e =>
      let v := if 0 <=? e then Zpos m * 2 ^ e else Zpos m / 2 ^ (- e) in
      Ok (if s then - v else v)
  end.

(** The floats 60.0, 30.0, 1.0 and 0.5. *)
Definition float_60 : spec_float := S754_finite false 8444249301319680 (-47).
Definition float_30 : spec_float := S754_finite false 8444249301319680 (-48).
Definition float_1 : spec_float := S754_finite false 4503599627370496 (-52).
Definition float_half : spec_float := S754_finite false 4503599627370496 (-53).

Section Output.

(** [str] on containers and [float] on strings, as for the reconstruction,
    and [datetime.fromtimestamp(n / d).strftime("%Y-%m-%d %H:%M:%S")] in
    the local time zone, [None] when it raises. *)
Variable repr_container : value -> string.
Variable float_of_string : string -> option Z.
Variable strftime_local : Z -> Z -> option string.

(** Lines 13-26 on the time of a message, absent or a number. *)
Definition format_time (ts : option Z) : string :=
  match ts with
  | None => "N/A"
  | Some t =>
      let d := if negb (t =? 0) && (t >? 10 ^ 12) then 1000 else 1 in
      match strftime_local t d with
      | Some s => s
      | None => "N/A"
      end
  end.

(** Lines 118-121: one message of the file.  The dictionaries built at
    line 67 hold the key [role], so that the default of line 119 is not
    used. *)
Definition message_text (msg : message) : string :=
  ("**" ++ format_time (time msg) ++ " - " ++ py_str repr_container (role msg)
   ++ ":**" ++ newline ++ text msg ++ newline ++ newline)%string.

(** Lines 116-121: what is written to the file of a segment. *)
Definition segment_text (title : value) (thread_index s_idx : nat)
  (seg : list message) : string :=
  ("# " ++ py_str repr_container title ++ " - Thread " ++ dec thread_index
   ++ " Segment " ++ dec s_idx ++ newline ++ newline
   ++ String.concat EmptyString (map message_text seg))%string.

(** Lines 109-121: the files written, in order, as pairs of a name and
    the text, when every text is one the encoding of the file takes; a
    write that raises is outside this definition. *)
Definition save_segments (title : value) (conv_index thread_index : nat)
  (segments : list (list message)) (out_dir : string) : list (string * string) :=
  map (fun ks => (path_join out_dir (segment_name conv_index thread_index (fst ks)),
                  segment_text title thread_index (fst ks) (snd ks)))
    (enumerate_from 0 segments).

(** Lines 128-133: one conversation.  Whatever raises does so before the
    first file of the conversation is written. *)
Definition process_conversation (m : module_state) (out_dir : string)
  (idx : nat) (conv : value) : result (list (string * string)) :=
  title <- py_get conv "title" VNone ;;
  let title := py_or title (VStr ("Conversation " ++ dec idx)) in
  mapping <- py_get conv "mapping" (VDict []) ;;
  threads <- reconstruct_threads repr_container float_of_string mapping ;;
  Ok (flat_map
        (fun kt => save_segments title idx (fst kt)
                     (split_segments (snd kt) (split_segments_default m)) out_dir)
        (enumerate_from 0 threads)).

(** The loop of line 127 from conversation [idx] on: the files written,
    and how the loop ends. *)
Fixpoint process_conversations (m : module_state) (out_dir : string)
  (idx : nat) (convs : list value) : list (string * string) * result unit :=
  match convs with
  | [] => ([], Ok tt)
  | conv :: convs' =>
      match process_conversation m out_dir idx conv with
      | Ok ws =>
          let (ws', r) := process_conversations m out_dir (S idx) convs' in
          (ws ++ ws', r)
      | Raise e => ([], Raise e)
      | OutOfFuel => ([], OutOfFuel)
      end
  end.

(** Lines 124-133 on the loaded document [conversations]. *)
Definition process_file (m : module_state) (conversations : value)
  (out_dir : string) : list (string * string) * result unit :=
  match py_iter conversations with
  | Ok convs => process_conversations m out_dir 0 convs
  | Raise e => ([], Raise e)
  | OutOfFuel => ([], OutOfFuel)
  end.

(** Lines 142-146: the main program on the float [gap_minutes] that
    [argparse] makes of [--gap-minutes] (30.0 for the default 30): line
    145 stores [int(gap_minutes * 60)] in the global, and raises when the
    product is an infinity or not-a-number, before any file is written. *)
Definition main (gap_minutes : spec_float) (conversations : value) (out_dir : string)
  : list (string * string) * result unit :=
  match py_int (SFmul 53 1024 gap_minutes float_60) with
  | Ok gap_seconds =>
      process_file (set_gap gap_seconds module_loaded) conversations out_dir
  | Raise e => ([], Raise e)
  | OutOfFuel => ([], OutOfFuel)
  end.

End Output.

(** A document of two conversations; the first has two threads. *)
Definition sample_export : value :=
  VList [obj [("title", VStr "First"); ("mapping", branch_mapping)];
         obj [("mapping", scenario1_mapping)]]%string.

Definition no_strftime (n d : Z) : option string := None.

(** One conversation of two messages of one role, 1000 seconds apart. *)
Definition two_messages_export : value :=
  VList [obj [("mapping",
     obj [("a", obj [("children", VList [VStr "b"]);
                     ("message", obj [("author", obj [("role", VStr "user")]);
                                      ("create_time", VNum 0)])]);
          ("b", obj [("parent", VStr "a");
                     ("message", obj [("author", obj [("role", VStr "user")]);
                                      ("create_time", VNum 1000)])])])]]%string.

Definition is_digit (c : ascii) : bool :=
  let n := nat_of_ascii c in (48 <=? n)%nat && (n <=? 57)%nat.

Fixpoint all_digits (s : string) : bool :=
  match s with
  | EmptyString => true
  | String c s' => is_digit c && all_digits s'
  end.

(** The number a string of digits stands for. *)
Definition number_of (s : string) : option nat :=
  option_map Nat.of_uint (NilEmpty.uint_of_string s).

(** The name of the file of segment [s] of thread [t] of conversation
    [c], under [out_dir]. *)
Definition segment_file (out_dir : string) (c t s : nat) : string :=
  path_join out_dir (segment_name c t s).

(** A conversation whose one node has a null author, and a document with
    it between two others. *)
Definition broken_conversation : value :=
  obj [("title", VStr "Broken"); ("mapping", author_null_mapping)]%string.

Definition broken_export : value :=
  VList ([obj [("mapping", scenario1_mapping)]%string]
           ++ broken_conversation :: [obj [("mapping", branch_mapping)]%string]).

(* ===================================================================== *)
(** ** Mappings on which the reconstruction does not raise                *)
(* ===================================================================== *)

(** A field is missing or passes the test. *)
Definition field_ok (d : list (string * value)) (k : string) (ok : value -> bool)
  : bool :=
  match dict_get k d with
  | None => true
  | Some v => ok v
  end.

Definition is_dict (v : value) : bool :=
  match v with VDict _ => true | _ => false end.

(** What lines 39-51 and 61 ask of the fields of a node: a parent that
    is falsy or hashable; a message that is falsy or a dictionary, whose
    author and content, when there, are dictionaries; parts that are falsy
    or iterable, with items on which [str] does not raise; a time that is
    no integer beyond the range of a float. *)
Definition parent_ok (v : value) : bool := negb (truthy v) || hashable v.

(** An item of the parts whose [str] is at hand: [None] (left out), a
    boolean, a string, or an integer of at most 4300 digits (beyond them
    [str] raises [ValueError] where the interpreter limits the conversion;
    the [str] of a container goes through its items, and is left out). *)
Definition part_ok (p : value) : bool :=
  match p with
  | VNone | VBool _ | VStr _ => true
  | VNum z => Z.abs z <? 10 ^ 4300
  | VList _ | VDict _ => false
  end.

Definition parts_ok (v : value) : bool :=
  negb (truthy v)
  || match v with
     | VList items => forallb part_ok items
     | VStr _ | VDict _ => true
     | _ => false
     end.

Definition content_ok (v : value) : bool :=
  match v with
  | VDict c => field_ok c "parts" parts_ok
  | _ => false
  end.

Definition time_ok (v : value) : bool :=
  match v with
  | VNum z => Z.abs z <? float_overflow
  | _ => true
  end.

Definition message_ok (v : value) : bool :=
  negb (truthy v)
  || match v with
     | VDict msg =>
         field_ok msg "author" is_dict
         && field_ok msg "content" content_ok
         && field_ok msg "create_time" time_ok
     | _ => false
     end.

Definition node_ok (data : value) : bool :=
  match data with
  | VDict d => field_ok d "parent" parent_ok && field_ok d "message" message_ok
  | _ => false
  end.

Definition well_shaped (mapping : value) : bool :=
  negb (truthy mapping)
  || match mapping with
     | VDict items => forallb (fun kv => node_ok (snd kv)) items
     | _ => false
     end.

(** What the list objects of a call hold between two iterations of the
    loop: the references handled so far, [done], are those of the segments
    closed so far followed by those of the current segment. *)
Definition refs_inv (segments : nat) (hc : heap) (current : nat) (done : list nat)
  : Prop :=
  exists srefs segs cl,
    read_list hc segments = Some srefs
    /\ read_all (read_list hc) srefs = Some segs
    /\ read_list hc current = Some cl
    /\ concat segs ++ cl = done.

(* ===================================================================== *)
(** ** The segmenter on binary64 times                                    *)
(* ===================================================================== *)

(** The times of a thread are Python floats: [reconstruct_threads] passes
    every time through [float].  This part takes them as they are, IEEE
    754 binary64 values ([spec_float], precision 53, maximal exponent
    1024) with not-a-number, infinities and rounding, for the properties
    of [split_segments] that depend on the arithmetic or the order of
    floats.  The built-in [sorted] is a parameter here: on keys with a
    not-a-number among them its result is not fixed by the language. *)
Module Binary64.

(** [x - y] on floats. *)
Definition fsub (x y : spec_float) : spec_float := SFsub 53 1024 x y.

Definition is_nan (x : spec_float) : bool :=
  match x with S754_nan => true | _ => false end.

(** Truth value of a float: false for both zeros. *)
Definition float_truthy (x : spec_float) : bool :=
  match x with S754_zero _ => false | _ => true end.

(** The comparison of a float with an integer, which Python makes on the
    exact values; [None] when the float is not a number. *)
Definition compare_float_int (x : spec_float) (n : Z) : option comparison :=
  match x with
  | S754_nan => None
  | S754_infinity s => Some (if s then Lt else Gt)
  | S754_zero _ => Some (0 ?= n)
  | S754_finite s m e =>
      let v := if s then Zneg m else Zpos m in
      Some (if 0 <=? e then v * 2 ^ e ?= n else v ?= n * 2 ^ (- e))
  end.

(** [x > n]. *)
Definition float_gt_int (x : spec_float) (n : Z) : bool :=
  match compare_float_int x n with Some Gt => true | _ => false end.

(** The [{"role", "text", "time"}] dictionaries of a thread, the time
    absent or a float. *)
Record message : Type := mkMessage {
  role : value;
  text : string;
  time : option spec_float
}.

(** [m.get("time") or 0], the sort key: the time, or the integer 0, which
    compares with a float as the float 0.0 does. *)
Definition sort_key (m : message) : spec_float :=
  match time m with
  | Some t => if float_truthy t then t else S754_zero false
  | None => S754_zero false
  end.

(** The stable sort by [<] on the keys: the order every stable sort
    gives when no key is not-a-number. *)
Fixpoint insert_lt {A : Type} (key : A -> spec_float) (x : A) (l : list A) : list A :=
  match l with
  | [] => [x]
  | y :: l' =>
      if SFltb (key y) (key x) then y :: insert_lt key x l' else x :: y :: l'
  end.

Fixpoint stable_sort {A : Type} (key : A -> spec_float) (l : list A) : list A :=
  match l with
  | [] => []
  | x :: l' => insert_lt key x (stable_sort key l')
  end.

Definition no_nan_key (l : list message) : bool :=
  forallb (fun m => negb (is_nan (sort_key m))) l.

(** What the language promises of line 82: a stable sort.  When no key is
    not-a-number that is [stable_sort]; otherwise the order is left
    open. *)
Definition sorts_stably (srt : list message -> list message) : Prop :=
  forall l, no_nan_key l = true -> srt l = stable_sort sort_key l.

(** Lines 90-93. *)
Definition time_gap (gap_seconds : Z) (prev cur : message) : bool :=
  match time prev, time cur with
  | Some prev_time, Some cur_time => float_gt_int (fsub cur_time prev_time) gap_seconds
  | _, _ => false
  end.

(** Line 95. *)
Definition role_change (prev cur : message) : bool :=
  negb (py_eq (role prev) (role cur)).

Definition boundary (gap_seconds : Z) (prev cur : message) : bool :=
  time_gap gap_seconds prev cur || role_change prev cur.

(** One iteration of the loop of lines 86-101. *)
Definition seg_step (gap_seconds : Z)
  (st : list (list message) * list message) (pc : message * message)
  : list (list message) * list message :=
  let (segments, current) := st in
  let (prev, cur) := pc in
  if boundary gap_seconds prev cur
  then (segments ++ [current], [cur])
  else (segments, current ++ [cur]).

(** Lines 76-106; [srt] is [sorted(..., key=lambda m: m.get("time") or 0)],
    which returns as many messages as it is given. *)
Definition split_segments (srt : list message -> list message)
  (messages : list message) (gap_seconds : Z) : list (list message) :=
  match messages with
  | [] => []
  | _ :: _ =>
      let messages := srt messages in
      match messages with
      | [] => []
      | first :: rest =>
          let (segments, current) :=
            fold_left (seg_step gap_seconds) (combine messages rest) ([], [first]) in
          match current with
          | [] => segments
          | _ :: _ => segments ++ [current]
          end
      end
  end.

(** The segments as a recursive function of the sorted list. *)
Fixpoint chunks (gap_seconds : Z) (prev : message) (rest : list message)
  : list message * list (list message) :=
  match rest with
  | [] => ([], [])
  | cur :: rest' =>
      let (s, more) := chunks gap_seconds cur rest' in
      if boundary gap_seconds prev cur
      then ([], (cur :: s) :: more)
      else (cur :: s, more)
  end.

Definition segments_of (gap_seconds : Z) (l : list message) : list (list message) :=
  match l with
  | [] => []
  | first :: rest =>
      let (s, more) := chunks gap_seconds first rest in (first :: s) :: more
  end.

Definition close_segments (st : list (list message) * list message)
  : list (list message) :=
  match snd st with
  | [] => fst st
  | _ :: _ => fst st ++ [snd st]
  end.

Definition boundary_pair (gap_seconds : Z) (pc : message * message) : bool :=
  boundary gap_seconds (fst pc) (snd pc).

(** No key of an earlier message is above the key of a later one. *)
Definition not_above (a b : message) : Prop :=
  SFltb (sort_key b) (sort_key a) = false.

(** The sort of line 82 when it is the stable sort throughout. *)
Definition sorted_by_time (l : list message) : list message :=
  stable_sort sort_key l.

(** Sample times and messages. *)
Definition f_37_9 : spec_float := S754_finite false 5333950808666931 (-47).
Definition f_1837_9 : spec_float := S754_finite false 8083169682758042 (-42).
Definition f_1800 : spec_float := S754_finite false 7916483719987200 (-42).
Definition f_10 : spec_float := S754_finite false 5629499534213120 (-49).
Definition f_1811 : spec_float := S754_finite false 7964862231609344 (-42).
Definition f_minus_5 : spec_float := S754_finite true 5629499534213120 (-50).
Definition f_3_5 : spec_float := S754_finite false 7881299347898368 (-51).
Definition f_7 : spec_float := S754_finite false 7881299347898368 (-50).

Definition f_1 : spec_float := S754_finite false 4503599627370496 (-52).
Definition f_2p53_4 : spec_float := S754_finite false 4503599627370498 1.

Definition at_time (r : value) (t : spec_float) : message := mkMessage r "" (Some t).
Definition untimed (r : value) : message := mkMessage r "" None.

End Binary64.
Example scenario2 :
  split_segments
    [mkMessage user "a" (Some 0); mkMessage assistant "b" (Some 10);
     mkMessage assistant "c" (Some 2000)] 1800
  = [[mkMessage user "a" (Some 0)]; [mkMessage assistant "b" (Some 10)];
     [mkMessage assistant "c" (Some 2000)]].
Proof. reflexivity. Qed.

Example split_empty : split_segments [] 1800 = [].
Proof. reflexivity. Qed.

Example scenario1 :
  reconstruct_threads no_repr no_float scenario1_mapping
  = Ok [[mkMessage user "hi" (Some 100)]].
Proof. vm_compute. reflexivity. Qed.

Example scenario1_segments :
  split_segments [mkMessage user "hi" (Some 100)] 1800
  = [[mkMessage user "hi" (Some 100)]].
Proof. reflexivity. Qed.

Example scenario3 : reconstruct_threads no_repr no_float (obj []) = Ok [].
Proof. reflexivity. Qed.

Example cycle_run :
  reconstruct_threads no_repr no_float cycle_mapping
  = Ok [[mkMessage assistant "" None; mkMessage user "" None];
        [mkMessage user "" None; mkMessage assistant "" None]].
Proof. vm_compute. reflexivity. Qed.

Example py_str_num : py_str no_repr (VNum (-15)) = "-15"%string /\ py_str no_repr (VNum 0) = "0"%string.
Proof. split; reflexivity. Qed.

(* ===================================================================== *)
(** ** The segmenter: the loop and its recursive form                     *)
(* ===================================================================== *)

Section SegmenterLoop.

Variable gap : Z.

Lemma fold_seg_step_chunks (rest : list message) :
  forall prev segments current,
    close_segments
      (fold_left (seg_step gap) (combine (prev :: rest) rest)
         (segments, current ++ [prev]))
    = segments ++ (let (s, more) := chunks gap prev rest in
                   ((current ++ [prev]) ++ s) :: more).
Proof.
  induction rest as [|cur rest' IH]; intros prev segments current.
  - simpl. unfold close_segments; simpl.
    destruct (current ++ [prev]) eqn:E.
    + destruct current; discriminate.
    + now rewrite app_nil_r.
  - change (combine (prev :: cur :: rest') (cur :: rest'))
      with ((prev, cur) :: combine (cur :: rest') rest').
    cbn [fold_left seg_step chunks].
    destruct (boundary gap prev cur).
    + pose proof (IH cur (segments ++ [current ++ [prev]]) []) as H.
      cbn [app] in H. rewrite H.
      destruct (chunks gap cur rest') as [s more]. simpl.
      now rewrite app_nil_r, <- app_assoc.
    + rewrite (IH cur segments (current ++ [prev])).
      destruct (chunks gap cur rest') as [s more].
      now rewrite <- !app_assoc.
Qed.

Lemma split_segments_sorted (messages : list message) :
  split_segments messages gap = segments_of gap (sorted sort_key messages).
Proof.
  unfold split_segments.
  destruct messages as [|m ms]; [reflexivity|].
  destruct (sorted sort_key (m :: ms)) as [|first rest]; [reflexivity|].
  pose proof (fold_seg_step_chunks rest first [] []) as H.
  cbn [app] in H. unfold close_segments in H.
  destruct (fold_left (seg_step gap) (combine (first :: rest) rest) ([], [first]))
    as [segments current].
  cbn [fst snd] in H. unfold segments_of.
  destruct (chunks gap first rest) as [s more].
  destruct current; exact H.
Qed.

Lemma concat_chunks (rest : list message) :
  forall prev, let (s, more) := chunks gap prev rest in s ++ concat more = rest.
Proof.
  induction rest as [|cur rest' IH]; intros prev; simpl; [reflexivity|].
  specialize (IH cur). destruct (chunks gap cur rest') as [s more].
  destruct (boundary gap prev cur); simpl; now rewrite IH.
Qed.

Lemma concat_segments_of (l : list message) : concat (segments_of gap l) = l.
Proof.
  destruct l as [|first rest]; [reflexivity|]. unfold segments_of.
  pose proof (concat_chunks rest first) as H.
  destruct (chunks gap first rest) as [s more]. simpl. now rewrite H.
Qed.

Lemma starts_chunks (rest : list message) :
  forall prev,
    let (s, more) := chunks gap prev rest in
    map (fun _ => false) s ++ segment_starts more
    = map (boundary_pair gap) (combine (prev :: rest) rest).
Proof.
  induction rest as [|cur rest' IH]; intros prev; [reflexivity|].
  change (combine (prev :: cur :: rest') (cur :: rest'))
    with ((prev, cur) :: combine (cur :: rest') rest').
  cbn [chunks map]. specialize (IH cur).
  destruct (chunks gap cur rest') as [s more].
  rewrite <- IH. unfold boundary_pair. cbn [fst snd].
  destruct (boundary gap prev cur); reflexivity.
Qed.

Lemma starts_segments_of (first : message) (rest : list message) :
  segment_starts (segments_of gap (first :: rest))
  = true :: map (boundary_pair gap) (combine (first :: rest) rest).
Proof.
  unfold segments_of. pose proof (starts_chunks rest first) as H.
  destruct (chunks gap first rest) as [s more]. rewrite <- H. reflexivity.
Qed.

Lemma nth_boundary_pairs (l1 : list message) :
  forall first rest prev cur l2,
    first :: rest = l1 ++ prev :: cur :: l2 ->
    nth_error (map (boundary_pair gap) (combine (first :: rest) rest)) (List.length l1)
    = Some (boundary gap prev cur).
Proof.
  induction l1 as [|x l1 IH]; intros first rest prev cur l2 E.
  - simpl in E. injection E as -> ->. reflexivity.
  - simpl in E. injection E as -> ->.
    destruct l1 as [|y l1'].
    + simpl. reflexivity.
    + change (combine (x :: (y :: l1') ++ prev :: cur :: l2) ((y :: l1') ++ prev :: cur :: l2))
        with ((x, y) :: combine (y :: l1' ++ prev :: cur :: l2) (l1' ++ prev :: cur :: l2)).
      cbn [map List.length nth_error].
      apply (IH y (l1' ++ prev :: cur :: l2) prev cur l2). reflexivity.
Qed.

(** A segment begins at the second message of a consecutive pair of the
    sorted list exactly when the pair is a boundary. *)
Lemma new_segment_at_pair (messages l1 l2 : list message) (prev cur : message) :
  sorted sort_key messages = l1 ++ prev :: cur :: l2 ->
  new_segment_at (split_segments messages gap) (S (List.length l1))
  = Some (boundary gap prev cur).
Proof.
  intros E. rewrite split_segments_sorted. unfold new_segment_at.
  destruct (sorted sort_key messages) as [|first rest] eqn:Es.
  - destruct l1; discriminate.
  - rewrite starts_segments_of. cbn [nth_error].
    now apply nth_boundary_pairs with (l2 := l2).
Qed.

Lemma concat_split_segments (messages : list message) :
  concat (split_segments messages gap) = sorted sort_key messages.
Proof. rewrite split_segments_sorted. apply concat_segments_of. Qed.

Lemma length_segment_starts (segs : list (list message)) :
  length (segment_starts segs) = length (concat segs).
Proof.
  induction segs as [|s segs IH]; [reflexivity|].
  unfold segment_starts in *. cbn [flat_map concat].
  rewrite !length_app, IH. destruct s; simpl; [reflexivity|].
  now rewrite length_map.
Qed.

End SegmenterLoop.

(* ===================================================================== *)
(** ** The stable sort                                                    *)
(* ===================================================================== *)

Section StableSort.

Context {A : Type}.
Variable key : A -> Z.

Lemma insert_by_perm (x : A) (l : list A) :
  Permutation (insert_by key x l) (x :: l).
Proof.
  induction l as [|y l IH]; simpl; [reflexivity|].
  destruct (key x <=? key y); [reflexivity|].
  rewrite IH. apply perm_swap.
Qed.

Lemma sorted_perm (l : list A) : Permutation (sorted key l) l.
Proof.
  induction l as [|x l IH]; simpl; [constructor|].
  rewrite insert_by_perm. now constructor.
Qed.



(** Sorting a list that is already in key order leaves it as it is. *)
Lemma sorted_fixed (l : list A) :
  StronglySorted (le_by key) l -> sorted key l = l.
Proof.
  induction 1 as [|x l Hs IH Hx]; simpl; [reflexivity|].
  rewrite IH. destruct l as [|y l']; [reflexivity|]. simpl.
  inversion Hx as [|? ? Hxy _]; subst. unfold le_by in Hxy.
  apply Z.leb_le in Hxy. now rewrite Hxy.
Qed.



End StableSort.

Section Unbroken.

Variable gap : Z.



End Unbroken.

Lemma py_eq_none_l (r : value) : r <> VNone -> py_eq VNone r = false.
Proof. destruct r; intros H; try reflexivity. now elim H. Qed.

Lemma py_eq_none_r (r : value) : r <> VNone -> py_eq r VNone = false.
Proof. destruct r; intros H; try reflexivity. now elim H. Qed.


(* ===================================================================== *)
(** ** Properties of [split_segments]                                     *)
(* ===================================================================== *)

(** C2.  The concatenation of the segments of a thread is a permutation of
    the thread, for every gap threshold: no message is lost and none is
    duplicated. *)
Theorem split_segments_coverage (T : list message) (gap_seconds : Z) :
  Permutation (concat (split_segments T gap_seconds)) T.
Proof.
  rewrite concat_split_segments. apply sorted_perm.
Qed.

(** C5.  Two consecutive messages of the sorted list whose roles differ
    are split, whatever their times; a missing role differs from every
    role that is there. *)
Theorem role_change_splits
  (messages l1 l2 : list message) (prev cur : message) (gap_seconds : Z) :
  sorted sort_key messages = l1 ++ prev :: cur :: l2 ->
  (py_eq (role prev) (role cur) = false \/
   (role prev = VNone /\ role cur <> VNone) \/
   (role prev <> VNone /\ role cur = VNone)) ->
  new_segment_at (split_segments messages gap_seconds) (S (length l1)) = Some true.
Proof.
  intros E H.
  rewrite (new_segment_at_pair gap_seconds messages l1 l2 prev cur E).
  assert (Hr : py_eq (role prev) (role cur) = false).
  { destruct H as [H | [[Hp Hc] | [Hp Hc]]]; [exact H | |].
    - rewrite Hp. now apply py_eq_none_l.
    - rewrite Hc. now apply py_eq_none_r. }
  unfold boundary, role_change. rewrite Hr. now rewrite orb_true_r.
Qed.

Lemma role_change_splits_witness :
  new_segment_at (split_segments [u_untimed; a_untimed] 1800) 1 = Some true
  /\ new_segment_at (split_segments [roleless 4; u 5] 1800) 1 = Some true.
Proof.
  split.
  - apply (role_change_splits [u_untimed; a_untimed] [] [] u_untimed a_untimed 1800);
      [reflexivity | left; reflexivity].
  - apply (role_change_splits [roleless 4; u 5] [] [] (roleless 4) (u 5) 1800);
      [reflexivity | right; left; split; [reflexivity | discriminate]].
Defined.

(** C6.  When the time of one message of a consecutive pair of the sorted
    list, or of both, is absent, the pair is split exactly when the roles
    differ: the gap test plays no part. *)
Theorem missing_time_skips_gap_check
  (messages l1 l2 : list message) (prev cur : message) (gap_seconds : Z) :
  sorted sort_key messages = l1 ++ prev :: cur :: l2 ->
  time prev = None \/ time cur = None ->
  time_gap gap_seconds prev cur = false
  /\ new_segment_at (split_segments messages gap_seconds) (S (length l1))
     = Some (negb (py_eq (role prev) (role cur))).
Proof.
  intros E H.
  assert (Hg : time_gap gap_seconds prev cur = false).
  { unfold time_gap. destruct H as [-> | ->]; [reflexivity|].
    now destruct (time prev). }
  split; [exact Hg|].
  rewrite (new_segment_at_pair gap_seconds messages l1 l2 prev cur E).
  unfold boundary. now rewrite Hg.
Qed.

Lemma missing_time_skips_gap_check_witness :
  new_segment_at (split_segments [u_untimed; u 99999] 1800) 1 = Some false
  /\ new_segment_at (split_segments [u_untimed; a 99999] 1800) 1 = Some true.
Proof.
  split.
  - apply (missing_time_skips_gap_check [u_untimed; u 99999] [] [] u_untimed (u 99999) 1800);
      [reflexivity | left; reflexivity].
  - apply (missing_time_skips_gap_check [u_untimed; a 99999] [] [] u_untimed (a 99999) 1800);
      [reflexivity | left; reflexivity].
Defined.



(* ===================================================================== *)
(** ** The upward walk                                                    *)
(* ===================================================================== *)

Lemma py_eq_str (x : value) (k : string) : py_eq x (VStr k) = true -> x = VStr k.
Proof.
  destruct x; simpl; try discriminate.
  intros H. apply String.eqb_eq in H. now subst.
Qed.

Lemma dict_get_in {A : Type} (k : string) (d : list (string * A)) :
  dict_get k d <> None -> In k (map fst d).
Proof.
  induction d as [|[k' v] d IH]; simpl; [congruence|].
  destruct (String.eqb_spec k k'); [now left | right; now apply IH].
Qed.

Lemma dict_set_length {A : Type} (k : string) (v : A) (d : list (string * A)) :
  (length (dict_set k v d) <= S (length d))%nat.
Proof.
  induction d as [|[k' v'] d IH]; simpl; [lia|].
  destruct (String.eqb k k'); simpl; lia.
Qed.

Section Walk.

Variable nodes : list (string * node).

Lemma seen_ok_length (seen : list value) :
  seen_ok nodes seen -> (length seen <= length nodes)%nat.
Proof.
  intros [Hnd Hin].
  rewrite <- (length_map fst nodes), <- (length_map VStr (map fst nodes)).
  apply NoDup_incl_length; [exact Hnd|].
  intros x Hx. destruct (Hin x Hx) as (k & -> & Hk).
  apply in_map. now apply dict_get_in.
Qed.

Lemma seen_ok_mem (cur : value) (seen : list value) :
  seen_ok nodes seen -> existsb (py_eq cur) seen = true -> In cur seen.
Proof.
  intros [_ Hin] H. apply existsb_exists in H as (x & Hx & He).
  destruct (Hin x Hx) as (k & -> & _).
  apply py_eq_str in He. now subst.
Qed.

Lemma seen_ok_fresh (cur : value) (seen : list value) :
  seen_ok nodes seen -> existsb (py_eq cur) seen = false -> ~ In cur seen.
Proof.
  intros [_ Hin] H Hc. destruct (Hin cur Hc) as (k & -> & _).
  assert (existsb (py_eq (VStr k)) seen = true); [|congruence].
  apply existsb_exists. exists (VStr k). split; [exact Hc|].
  simpl. apply String.eqb_refl.
Qed.

Lemma seen_ok_cons (cur : value) (seen : list value) (n : node) :
  seen_ok nodes seen -> existsb (py_eq cur) seen = false ->
  nodes_get cur nodes = Some n -> seen_ok nodes (cur :: seen).
Proof.
  intros Hok Hf Hn. pose proof (seen_ok_fresh cur seen Hok Hf) as Hnin.
  destruct Hok as [Hnd Hin]. split; [now constructor|].
  intros x [<- | Hx]; [|now apply Hin].
  destruct cur; try discriminate. exists s. split; [reflexivity|].
  simpl in Hn. congruence.
Qed.

(** With more fuel than there are nodes left to meet, the loop is left
    by its own tests, in a halted state and with distinct ids in
    [seen]. *)
Lemma walk_halts (fuel : nat) :
  forall cur seen path,
    seen_ok nodes seen ->
    (length nodes < fuel + length seen)%nat ->
    match walk nodes fuel cur seen path with
    | Ok (cur', seen', _) => NoDup seen' /\ halted nodes cur' seen'
    | Raise e => e = TypeError
    | OutOfFuel => False
    end.
Proof.
  induction fuel as [|fuel IH]; intros cur seen path Hok Hlen.
  - pose proof (seen_ok_length seen Hok). simpl in Hlen. lia.
  - cbn [walk]. destruct (truthy cur) eqn:Ht; cbn [negb].
    + unfold set_mem. destruct (hashable cur); cbn [bind]; [|reflexivity].
      destruct (existsb (py_eq cur) seen) eqn:Em.
      * split; [apply Hok|]. right; right. now apply seen_ok_mem.
      * destruct (nodes_get cur nodes) as [n|] eqn:En.
        -- apply IH; [now apply seen_ok_cons with (n := n)|]. simpl. lia.
        -- split; [|right; now left].
           constructor; [now apply seen_ok_fresh | apply Hok].
    + split; [apply Hok | now left].
Qed.

(** A run that did not use up its fuel is the same with more. *)
Lemma walk_fuel_mono (fuel : nat) :
  forall fuel' cur seen path,
    (fuel <= fuel')%nat ->
    walk nodes fuel cur seen path <> OutOfFuel ->
    walk nodes fuel' cur seen path = walk nodes fuel cur seen path.
Proof.
  induction fuel as [|fuel IH]; intros fuel' cur seen path Hle Hr.
  - now elim Hr.
  - destruct fuel' as [|fuel']; [lia|]. cbn [walk] in Hr |- *.
    destruct (negb (truthy cur)); [reflexivity|].
    destruct (set_mem cur seen) as [[|]| |]; cbn [bind] in Hr |- *; try reflexivity.
    destruct (nodes_get cur nodes); [|reflexivity].
    apply IH; [lia | exact Hr].
Qed.

Lemma walk_enough (fuel : nat) (leaf : string) :
  (length nodes < fuel)%nat ->
  walk nodes fuel (VStr leaf) [] [] <> OutOfFuel
  /\ walk nodes fuel (VStr leaf) [] [] = walk nodes (S (length nodes)) (VStr leaf) [] [].
Proof.
  intros Hf.
  assert (Hok : seen_ok nodes []).
  { split; [constructor | intros x []]. }
  assert (H1 : walk nodes (S (length nodes)) (VStr leaf) [] [] <> OutOfFuel).
  { pose proof (walk_halts (S (length nodes)) (VStr leaf) [] [] Hok) as H.
    intros E. rewrite E in H. apply H. simpl. lia. }
  pose proof (walk_fuel_mono (S (length nodes)) fuel (VStr leaf) [] [] Hf H1) as H2.
  split; [congruence | exact H2].
Qed.

(** The entries of the path are those of the chain's nodes with a truthy
    role, in the order of the walk. *)
Lemma walk_path (fuel : nat) :
  forall cur seen path cur' seen' path',
    walk nodes fuel cur seen path = Ok (cur', seen', path') ->
    path' = path ++ map entry_of
                      (filter role_truthy (parent_chain nodes fuel cur seen)).
Proof.
  induction fuel as [|fuel IH]; intros cur seen path cur' seen' path' H.
  - discriminate.
  - cbn [walk parent_chain] in H |- *.
    destruct (truthy cur); cbn [negb andb] in H |- *.
    2:{ injection H as _ _ <-. now rewrite app_nil_r. }
    unfold set_mem in H. destruct (hashable cur); cbn [bind andb] in H |- *.
    2:{ discriminate. }
    destruct (existsb (py_eq cur) seen); cbn [negb] in H |- *.
    { injection H as _ _ <-. now rewrite app_nil_r. }
    destruct (nodes_get cur nodes) as [n|].
    2:{ injection H as _ _ <-. now rewrite app_nil_r. }
    apply IH in H. rewrite H. cbn [filter]. unfold role_truthy at 2.
    destruct (truthy (n_role n)); cbn [map]; [|reflexivity].
    now rewrite <- app_assoc.
Qed.

(** Along a run that is left by its own tests, the chain does not
    depend on the fuel. *)
Lemma chain_fuel_mono (fuel : nat) :
  forall fuel' cur seen path,
    (fuel <= fuel')%nat ->
    walk nodes fuel cur seen path <> OutOfFuel ->
    parent_chain nodes fuel' cur seen = parent_chain nodes fuel cur seen.
Proof.
  induction fuel as [|fuel IH]; intros fuel' cur seen path Hle Hr.
  - now elim Hr.
  - destruct fuel' as [|fuel']; [lia|]. cbn [walk parent_chain] in Hr |- *.
    destruct (truthy cur); cbn [negb andb] in Hr |- *; [|reflexivity].
    unfold set_mem in Hr. destruct (hashable cur); cbn [bind andb] in Hr |- *;
      [|reflexivity].
    destruct (existsb (py_eq cur) seen); cbn [negb] in Hr |- *; [reflexivity|].
    destruct (nodes_get cur nodes) as [n|]; [|reflexivity].
    f_equal. eapply IH; [lia | exact Hr].
Qed.

(** The chain of a leaf is whole with the fuel [thread_by] gives it. *)
Lemma parent_chain_whole (fuel : nat) (leaf : string) :
  (length nodes < fuel)%nat ->
  parent_chain nodes fuel (VStr leaf) []
  = parent_chain nodes (S (length nodes)) (VStr leaf) [].
Proof.
  intros Hf. apply chain_fuel_mono with (path := []); [exact Hf|].
  destruct (walk_enough (S (length nodes)) leaf) as [H _]; [lia | exact H].
Qed.

Lemma walk_thread (fuel : nat) (leaf : string) st :
  (length nodes < fuel)%nat ->
  walk nodes fuel (VStr leaf) [] [] = Ok st ->
  rev (snd st) = thread_by role_truthy nodes leaf.
Proof.
  intros Hf H. destruct (walk_enough fuel leaf Hf) as [_ E].
  rewrite E in H. destruct st as [[cur' seen'] path'].
  apply walk_path in H. cbn [snd]. now subst path'.
Qed.

Lemma collect_threads (fuel : nat) (ls : list string) :
  (length nodes < fuel)%nat ->
  forall acc,
    match collect nodes fuel ls acc with
    | Ok threads =>
        threads = acc ++ filter (fun t => negb (is_nil t))
                           (map (thread_by role_truthy nodes) ls)
    | Raise e => e = TypeError
    | OutOfFuel => False
    end.
Proof.
  intros Hf. induction ls as [|leaf ls IH]; intros acc.
  - simpl. now rewrite app_nil_r.
  - cbn [collect]. destruct (walk_enough fuel leaf Hf) as [Hne E].
    assert (Hok : seen_ok nodes []).
    { split; [constructor | intros x []]. }
    pose proof (walk_halts (S (length nodes)) (VStr leaf) [] [] Hok) as Hh.
    rewrite <- E in Hh.
    destruct (walk nodes fuel (VStr leaf) [] []) as [st| |] eqn:Ew; cbn [bind].
    + rewrite (walk_thread fuel leaf st Hf Ew). specialize (IH
        (match thread_by role_truthy nodes leaf with
         | [] => acc
         | _ :: _ => acc ++ [thread_by role_truthy nodes leaf]
         end)).
      destruct (collect nodes fuel ls _) as [threads| |]; try exact IH.
      rewrite IH. cbn [map filter].
      destruct (thread_by role_truthy nodes leaf); cbn [is_nil negb];
        [reflexivity | now rewrite <- app_assoc].
    + apply Hh. simpl. lia.
    + now elim Hne.
Qed.

Lemma collect_fuel (fuel : nat) (ls : list string) :
  (length nodes < fuel)%nat ->
  forall acc,
    collect nodes fuel ls acc = collect nodes (S (length nodes)) ls acc.
Proof.
  intros Hf. induction ls as [|leaf ls IH]; intros acc; [reflexivity|].
  cbn [collect]. destruct (walk_enough fuel leaf Hf) as [_ ->].
  destruct (walk nodes (S (length nodes)) (VStr leaf) [] []); cbn [bind];
    try reflexivity.
  apply IH.
Qed.

End Walk.

(* ===================================================================== *)
(** ** Properties of [reconstruct_threads]                                *)
(* ===================================================================== *)

Section Reconstruction.

Variable repr_container : value -> string.
Variable float_of_string : string -> option Z.

Lemma build_nodes_length (items : list (string * value)) :
  forall acc nodes,
    build_nodes repr_container float_of_string items acc = Ok nodes ->
    (length nodes <= length acc + length items)%nat.
Proof.
  induction items as [|[mid data] items IH]; intros acc nodes H; simpl in H.
  - injection H as <-. lia.
  - destruct (build_node repr_container float_of_string mid data) as [n| |];
      cbn [bind] in H; try discriminate.
    apply IH in H. pose proof (dict_set_length mid n acc). simpl. lia.
Qed.

Lemma index_of_length (mapping : value) (nodes : list (string * node)) :
  index_of repr_container float_of_string mapping = Ok nodes -> (length nodes <= dict_size mapping)%nat.
Proof.
  unfold index_of. destruct (truthy mapping); cbn [negb].
  - destruct mapping; cbn [py_items bind]; try discriminate.
    intros H. apply build_nodes_length in H. simpl in *. lia.
  - intros H. injection H as <-. simpl. lia.
Qed.

Lemma reconstruct_threads_index (fuel : nat) (mapping : value) :
  reconstruct_threads_fuel repr_container float_of_string fuel mapping
  = (nodes <- index_of repr_container float_of_string mapping ;; collect nodes fuel (leaves nodes) []).
Proof.
  unfold reconstruct_threads_fuel, index_of.
  destruct (truthy mapping); cbn [negb]; [|reflexivity].
  destruct (py_items mapping) as [items| |]; cbn [bind]; reflexivity.
Qed.

Lemma bind_fuel {A B : Type} (r : result A) (k : A -> result B) :
  r <> OutOfFuel -> (forall x, k x <> OutOfFuel) -> bind r k <> OutOfFuel.
Proof. destruct r; cbn [bind]; intros Hr Hk; [apply Hk | discriminate | now elim Hr]. Qed.

Lemma py_get_fuel (x : value) (k : string) (d : value) : py_get x k d <> OutOfFuel.
Proof. destruct x; discriminate. Qed.

Lemma py_iter_fuel (x : value) : py_iter x <> OutOfFuel.
Proof. destruct x; discriminate. Qed.

Lemma py_float_fuel (ts : value) : py_float float_of_string ts <> OutOfFuel.
Proof.
  destruct ts; try discriminate. simpl.
  destruct (Z.abs z <? float_overflow); discriminate.
Qed.

Lemma build_node_fuel (mid : string) (data : value) :
  build_node repr_container float_of_string mid data <> OutOfFuel.
Proof.
  unfold build_node.
  repeat (apply bind_fuel; [apply py_get_fuel | intros ?]).
  apply bind_fuel; [apply py_iter_fuel | intros ?].
  apply bind_fuel; [apply py_get_fuel | intros ts].
  apply bind_fuel; [|discriminate].
  destruct (is_none ts); [discriminate | apply py_float_fuel].
Qed.

Lemma build_nodes_fuel (items : list (string * value)) :
  forall acc, build_nodes repr_container float_of_string items acc <> OutOfFuel.
Proof.
  induction items as [|[mid data] items IH]; intros acc; simpl; [discriminate|].
  apply bind_fuel; [apply build_node_fuel | intros n; apply IH].
Qed.

Lemma index_of_fuel (mapping : value) : index_of repr_container float_of_string mapping <> OutOfFuel.
Proof.
  unfold index_of. destruct (negb (truthy mapping)); [discriminate|].
  destruct mapping; cbn [py_items bind]; try discriminate.
  apply build_nodes_fuel.
Qed.

End Reconstruction.

(** Missing fields, and a null [message], [children], [parts], [parent] or
    [create_time], give the default values. *)
Lemma missing_fields_default
  (repr_container : value -> string) (float_of_string : string -> option Z)
  (mid : string) :
  build_node repr_container float_of_string mid (obj [])
  = Ok (mkNode mid VNone (VList []) VNone "" None)
  /\ build_node repr_container float_of_string mid
       (obj [("parent", VNone); ("children", VNone); ("message", VNone)]%string)
     = Ok (mkNode mid VNone (VList []) VNone "" None)
  /\ build_node repr_container float_of_string mid
       (obj [("message", obj [("author", obj []);
                              ("content", obj [("parts", VNone)]);
                              ("create_time", VNone)])]%string)
     = Ok (mkNode mid VNone (VList []) VNone "" None).
Proof. repeat split. Qed.

(** C1.  A node whose [author] is null makes [reconstruct_threads] raise
    [AttributeError]: [msg.get("author", {})] uses its default for a missing
    key only, and [None] has no [get]. *)
Theorem author_null_raises
  (repr_container : value -> string) (float_of_string : string -> option Z) :
  reconstruct_threads repr_container float_of_string author_null_mapping
  = Raise AttributeError.
Proof. reflexivity. Qed.

Lemma content_null_raises
  (repr_container : value -> string) (float_of_string : string -> option Z) :
  reconstruct_threads repr_container float_of_string content_null_mapping
  = Raise AttributeError.
Proof. reflexivity. Qed.

Lemma huge_time_raises
  (repr_container : value -> string) (float_of_string : string -> option Z) :
  reconstruct_threads repr_container float_of_string huge_time_mapping
  = Raise OverflowError.
Proof. vm_compute. reflexivity. Qed.

Lemma list_parent_raises
  (repr_container : value -> string) (float_of_string : string -> option Z) :
  reconstruct_threads repr_container float_of_string list_parent_mapping
  = Raise TypeError.
Proof. reflexivity. Qed.

Section Termination.

Variable repr_container : value -> string.
Variable float_of_string : string -> option Z.
Variable mapping : value.

Lemma reconstruct_threads_fuel_enough (fuel : nat) :
  (dict_size mapping < fuel)%nat ->
  reconstruct_threads_fuel repr_container float_of_string fuel mapping <> OutOfFuel.
Proof.
  intros Hf. rewrite reconstruct_threads_index.
  destruct (index_of repr_container float_of_string mapping) as [nodes| |] eqn:E;
    cbn [bind]; [|discriminate|].
  - pose proof (index_of_length _ _ _ _ E) as Hl.
    pose proof (collect_threads nodes fuel (leaves nodes) ltac:(lia) []) as H.
    intros E2. now rewrite E2 in H.
  - now elim (index_of_fuel repr_container float_of_string mapping).
Qed.

Lemma reconstruct_threads_fuel_same (fuel : nat) :
  (dict_size mapping < fuel)%nat ->
  reconstruct_threads_fuel repr_container float_of_string fuel mapping
  = reconstruct_threads repr_container float_of_string mapping.
Proof.
  intros Hf. unfold reconstruct_threads. rewrite !reconstruct_threads_index.
  destruct (index_of repr_container float_of_string mapping) as [nodes| |] eqn:E;
    cbn [bind]; try reflexivity.
  pose proof (index_of_length _ _ _ _ E) as Hl.
  rewrite (collect_fuel nodes fuel), (collect_fuel nodes (S (dict_size mapping)));
    [reflexivity | lia | lia].
Qed.

Lemma walk_of_index (nodes : list (string * node)) (leaf : string) :
  index_of repr_container float_of_string mapping = Ok nodes ->
  match walk nodes (S (dict_size mapping)) (VStr leaf) [] [] with
  | Ok (cur, seen, _) => NoDup seen /\ halted nodes cur seen
  | Raise e => e = TypeError
  | OutOfFuel => False
  end.
Proof.
  intros E. pose proof (index_of_length _ _ _ _ E) as Hl.
  destruct (walk_enough nodes (S (dict_size mapping)) leaf) as [_ ->]; [lia|].
  apply walk_halts; [split; [constructor | intros x []] | simpl; lia].
Qed.

End Termination.

(** C7.  [reconstruct_threads] ends on every mapping: the fuel it is given,
    one more than the number of nodes, is never used up, and more fuel
    changes nothing.  Each walk ends with distinct ids in [seen], at an id
    that is falsy (no parent), not in the index, or met before; the one
    other way out is the [TypeError] of an unhashable parent. *)
Theorem reconstruct_threads_terminates
  (repr_container : value -> string) (float_of_string : string -> option Z)
  (mapping : value) :
  reconstruct_threads repr_container float_of_string mapping <> OutOfFuel
  /\ (forall fuel,
        (dict_size mapping < fuel)%nat ->
        reconstruct_threads_fuel repr_container float_of_string fuel mapping
        = reconstruct_threads repr_container float_of_string mapping)
  /\ (forall nodes leaf,
        index_of repr_container float_of_string mapping = Ok nodes ->
        match walk nodes (S (dict_size mapping)) (VStr leaf) [] [] with
        | Ok (cur, seen, _) => NoDup seen /\ halted nodes cur seen
        | Raise e => e = TypeError
        | OutOfFuel => False
        end).
Proof.
  split; [apply (reconstruct_threads_fuel_enough repr_container float_of_string
                  mapping (S (dict_size mapping))); lia|].
  split; [intros fuel Hf; now apply reconstruct_threads_fuel_same|].
  intros nodes leaf E. now apply walk_of_index with (repr_container := repr_container)
                                                   (float_of_string := float_of_string).
Qed.

Lemma reconstruct_threads_terminates_witness :
  index_of no_repr no_float cycle_mapping = Ok cycle_nodes
  /\ match walk cycle_nodes 3 (VStr "A") [] [] with
     | Ok (cur, seen, _) => NoDup seen /\ halted cycle_nodes cur seen
     | Raise e => e = TypeError
     | OutOfFuel => False
     end.
Proof.
  split; [reflexivity|].
  apply (proj2 (proj2 (reconstruct_threads_terminates no_repr no_float cycle_mapping))
           cycle_nodes "A"%string).
  reflexivity.
Defined.

Example cycle_walk :
  walk cycle_nodes 3 (VStr "A") [] []
  = Ok (VStr "A", [VStr "B"; VStr "A"],
        [mkMessage user "" None; mkMessage assistant "" None]).
Proof. reflexivity. Qed.

(** C8, as stated, fails: a node whose role is the empty string is there
    for the specification, and is not appended by the code; its thread is
    dropped. *)
Lemma empty_role_not_appended :
  index_of no_repr no_float empty_role_mapping = Ok [("a"%string, empty_role_node)]
  /\ role_present empty_role_node = true
  /\ threads_by role_present [("a"%string, empty_role_node)]
     = [[mkMessage (VStr "") "" None]]
  /\ reconstruct_threads no_repr no_float empty_role_mapping = Ok [].
Proof. repeat split. Qed.

(** C8, amended.  The threads returned are, leaf by leaf, the entries of
    the nodes of the leaf's parent chain whose role is truthy (there, and
    not the empty string), root first; the chain does not depend on the
    roles, and a thread without entries is left out. *)
Theorem threads_of_truthy_roles
  (repr_container : value -> string) (float_of_string : string -> option Z)
  (mapping : value) (threads : list (list message)) :
  reconstruct_threads repr_container float_of_string mapping = Ok threads ->
  exists nodes,
    index_of repr_container float_of_string mapping = Ok nodes
    /\ threads = threads_by role_truthy nodes.
Proof.
  unfold reconstruct_threads. rewrite reconstruct_threads_index.
  destruct (index_of repr_container float_of_string mapping) as [nodes| |] eqn:E;
    cbn [bind]; try discriminate.
  intros H. exists nodes. split; [reflexivity|].
  pose proof (index_of_length _ _ _ _ E) as Hl.
  pose proof (collect_threads nodes (S (dict_size mapping)) (leaves nodes)
                ltac:(lia) []) as Hc.
  rewrite H in Hc. exact Hc.
Qed.

Lemma threads_of_truthy_roles_witness :
  reconstruct_threads no_repr no_float branch_mapping
  = Ok [[mkMessage user ("q" ++ newline ++ "7") None; mkMessage assistant "" (Some 12)];
        [mkMessage user ("q" ++ newline ++ "7") None]]
  /\ exists nodes,
       index_of no_repr no_float branch_mapping = Ok nodes
       /\ [[mkMessage user ("q" ++ newline ++ "7") None; mkMessage assistant "" (Some 12)];
           [mkMessage user ("q" ++ newline ++ "7") None]]
          = threads_by role_truthy nodes.
Proof.
  split; [reflexivity|].
  apply (threads_of_truthy_roles no_repr no_float branch_mapping). reflexivity.
Defined.

(* ===================================================================== *)
(** ** [split_segments] and the caller's objects                          *)
(* ===================================================================== *)

Example sample_run :
  match split_segments_st 3 1800 sample_heap with
  | Some (r, h') =>
      view_segments h' r = Some [[u 0; u 5]; [a 6]]
      /\ firstn 4 h' = sample_heap
      /\ h' = sample_heap
                ++ [OList [2%nat; 0%nat; 1%nat]; OList [6%nat; 7%nat];
                    OList [2%nat; 0%nat]; OList [1%nat]]
      /\ r = 5%nat
  | None => False
  end.
Proof. vm_compute. repeat split. Qed.

Section Store.

Lemma nth_error_update_eq (h : heap) :
  forall i o, (i < length h)%nat -> nth_error (update i o h) i = Some o.
Proof.
  induction h as [|x h IH]; intros [|i] o Hi; simpl in *; try lia; [reflexivity|].
  apply IH. lia.
Qed.

Lemma nth_error_update_ne (h : heap) :
  forall i j o, i <> j -> nth_error (update i o h) j = nth_error h j.
Proof.
  induction h as [|x h IH]; intros [|i] [|j] o Hij; simpl; try reflexivity;
    try congruence.
  apply IH. congruence.
Qed.

Lemma update_app_r (h : heap) :
  forall i o e, (length h <= i)%nat ->
                update i o (h ++ e) = h ++ update (i - length h) o e.
Proof.
  induction h as [|x h IH]; intros i o e Hi; simpl in *.
  - now rewrite Nat.sub_0_r.
  - destruct i as [|i]; [lia|]. simpl. f_equal. apply IH. lia.
Qed.

Lemma read_list_lt (h : heap) (l : nat) (items : list nat) :
  read_list h l = Some items -> (l < length h)%nat.
Proof.
  unfold read_list. intros H. apply nth_error_Some.
  destruct (nth_error h l); congruence.
Qed.

Lemma read_list_update_eq (h : heap) (l : nat) (items x : list nat) :
  read_list h l = Some items -> read_list (update l (OList x) h) l = Some x.
Proof.
  intros H. apply read_list_lt in H. unfold read_list.
  now rewrite nth_error_update_eq.
Qed.

Lemma read_list_update_ne (h : heap) (l s : nat) (o : object) :
  l <> s -> read_list (update l o h) s = read_list h s.
Proof. intros H. unfold read_list. now rewrite nth_error_update_ne. Qed.

(** Writing a list object over a list object changes no dictionary. *)
Lemma read_dict_update (h : heap) (l r : nat) (items x : list nat) :
  read_list h l = Some items ->
  read_dict (update l (OList x) h) r = read_dict h r.
Proof.
  intros H. destruct (Nat.eq_dec l r) as [<- | Hne].
  - pose proof (read_list_lt _ _ _ H) as Hlt. unfold read_dict, read_list in *.
    rewrite nth_error_update_eq by exact Hlt.
    destruct (nth_error h l) as [[m|its]|]; congruence.
  - unfold read_dict. now rewrite nth_error_update_ne.
Qed.

Lemma read_dict_app (h e : heap) (r : nat) (m : message) :
  read_dict h r = Some m -> read_dict (h ++ e) r = Some m.
Proof.
  unfold read_dict. intros H.
  rewrite nth_error_app1; [exact H|].
  apply nth_error_Some. destruct (nth_error h r); congruence.
Qed.

Lemma read_list_app (h e : heap) (l : nat) (items : list nat) :
  read_list h l = Some items -> read_list (h ++ e) l = Some items.
Proof.
  intros H. pose proof (read_list_lt _ _ _ H). unfold read_list in *.
  now rewrite nth_error_app1.
Qed.

Lemma read_list_new (h : heap) (items : list nat) :
  read_list (h ++ [OList items]) (length h) = Some items.
Proof.
  unfold read_list. rewrite nth_error_app2, Nat.sub_diag by lia. reflexivity.
Qed.

Lemma read_all_mono {A : Type} (rd rd' : nat -> option A) (refs : list nat) :
  (forall r x, In r refs -> rd r = Some x -> rd' r = Some x) ->
  forall xs, read_all rd refs = Some xs -> read_all rd' refs = Some xs.
Proof.
  induction refs as [|r refs IH]; intros Hm xs H; simpl in *; [exact H|].
  destruct (rd r) as [x|] eqn:Er; [|discriminate].
  destruct (read_all rd refs) as [xs'|]; [|discriminate].
  rewrite (Hm r x (or_introl eq_refl) Er), (IH (fun r' x' Hin => Hm r' x' (or_intror Hin)) xs' eq_refl).
  exact H.
Qed.

Lemma read_all_In {A : Type} (rd : nat -> option A) (refs : list nat) :
  forall xs r, read_all rd refs = Some xs -> In r refs -> exists x, rd r = Some x.
Proof.
  induction refs as [|r0 refs IH]; intros xs r H Hin; simpl in *; [contradiction|].
  destruct (rd r0) as [x|] eqn:Er; [|discriminate].
  destruct (read_all rd refs) as [xs'|]; [|discriminate].
  destruct Hin as [<- | Hin]; [now exists x | now apply (IH xs')].
Qed.

Lemma length_update (h : heap) :
  forall i o, length (update i o h) = length h.
Proof.
  induction h as [|x h IH]; intros [|i] o; simpl; try reflexivity.
  now rewrite IH.
Qed.

Lemma read_all_app {A : Type} (rd : nat -> option A) (l1 l2 : list nat) xs1 xs2 :
  read_all rd l1 = Some xs1 -> read_all rd l2 = Some xs2 ->
  read_all rd (l1 ++ l2) = Some (xs1 ++ xs2).
Proof.
  revert xs1. induction l1 as [|r l1 IH]; intros xs1 H1 H2; simpl in *.
  - injection H1 as <-. exact H2.
  - destruct (rd r) as [x|]; [|discriminate].
    destruct (read_all rd l1) as [xs|]; [|discriminate].
    injection H1 as <-. now rewrite (IH xs eq_refl H2).
Qed.

Lemma read_all_length {A : Type} (rd : nat -> option A) (refs : list nat) :
  forall xs, read_all rd refs = Some xs -> length xs = length refs.
Proof.
  induction refs as [|r refs IH]; intros xs H; simpl in *.
  - now injection H as <-.
  - destruct (rd r); [|discriminate].
    destruct (read_all rd refs) as [xs'|]; [|discriminate].
    injection H as <-. simpl. now rewrite (IH xs' eq_refl).
Qed.

Lemma read_all_Forall2 {A : Type} (rd : nat -> option A) (refs : list nat) :
  forall xs, read_all rd refs = Some xs ->
             Forall2 (fun r x => rd r = Some x) refs xs.
Proof.
  induction refs as [|r refs IH]; intros xs H; simpl in *.
  - injection H as <-. constructor.
  - destruct (rd r) as [x|] eqn:Er; [|discriminate].
    destruct (read_all rd refs) as [xs'|]; [|discriminate].
    injection H as <-. constructor; [exact Er | now apply IH].
Qed.

Lemma Forall2_read_all {A : Type} (rd : nat -> option A) (refs : list nat) xs :
  Forall2 (fun r x => rd r = Some x) refs xs -> read_all rd refs = Some xs.
Proof.
  induction 1 as [|r x refs xs Hr _ IH]; simpl; [reflexivity|].
  now rewrite Hr, IH.
Qed.

(** A list object keeps its messages when it is not the one written to
    and no dictionary changes. *)
Lemma view_list_stable (h h' : heap) (s : nat) (seg : list message) :
  (forall r m, read_dict h r = Some m -> read_dict h' r = Some m) ->
  read_list h' s = read_list h s ->
  view_list h s = Some seg -> view_list h' s = Some seg.
Proof.
  unfold view_list. intros Hd ->.
  destruct (read_list h s) as [items|]; [|discriminate].
  apply read_all_mono. intros r m _. apply Hd.
Qed.

Lemma view_list_app (h e : heap) (s : nat) (seg : list message) :
  view_list h s = Some seg -> view_list (h ++ e) s = Some seg.
Proof.
  intros H. apply view_list_stable with (h := h); [| |exact H].
  - intros r m. apply read_dict_app.
  - unfold view_list in H. destruct (read_list h s) as [items|] eqn:E; [|discriminate].
    now rewrite (read_list_app _ e _ _ E).
Qed.

Lemma view_list_update (h : heap) (l s : nat) (items x : list nat) seg :
  read_list h l = Some items -> l <> s ->
  view_list h s = Some seg -> view_list (update l (OList x) h) s = Some seg.
Proof.
  intros Hl Hne. apply view_list_stable.
  - intros r m. now rewrite (read_dict_update h l r items x Hl).
  - now apply read_list_update_ne.
Qed.

Lemma view_list_lt (h : heap) (s : nat) (seg : list message) :
  view_list h s = Some seg -> (s < length h)%nat.
Proof.
  unfold view_list. destruct (read_list h s) as [items|] eqn:E; [|discriminate].
  intros _. now apply read_list_lt in E.
Qed.


Section Loop.

Variable h0 : heap.
Variable gap : Z.
Variable segments : nat.

Lemma seg_step_st_inv (hc : heap) (current : nat)
  (st : list (list message) * list message)
  (rp : nat * nat) (mp : message * message) :
  seg_inv h0 segments hc current st ->
  denotes h0 rp mp ->
  exists current' hc',
    seg_step_st gap segments current rp hc = Some (current', hc')
    /\ seg_inv h0 segments hc' current' (seg_step gap st mp).
Proof.
  intros ([ext Hext] & Hsg & Hc & Hne & srefs & Hrl & Hfa & Hsegs & Hcur) [Hp Hcr].
  destruct st as [segsP curP], rp as [pr cr], mp as [pm cm]. cbn [fst snd] in *.
  assert (Hp' : read_dict hc pr = Some pm) by (subst hc; now apply read_dict_app).
  assert (Hcr' : read_dict hc cr = Some cm) by (subst hc; now apply read_dict_app).
  pose proof (read_list_lt _ _ _ Hrl) as Hsglt.
  pose proof (view_list_lt _ _ _ Hcur) as Hclt.
  unfold seg_step_st, bind_st, lift. cbn [fst snd]. rewrite Hp', Hcr'.
  unfold seg_step. destruct (boundary gap pm cm).
  - unfold append, alloc. rewrite Hrl.
    set (h1 := update segments (OList (srefs ++ [current])) hc).
    assert (Hlen : length h1 = length hc) by apply length_update.
    exists (length h1), (h1 ++ [OList [cr]]). split; [reflexivity|].
    assert (Hd : forall r m, read_dict hc r = Some m ->
                             read_dict (h1 ++ [OList [cr]]) r = Some m).
    { intros r m Hr. apply read_dict_app. unfold h1.
      now rewrite (read_dict_update hc segments r srefs _ Hrl). }
    assert (Hv : forall s seg, s <> segments -> view_list hc s = Some seg ->
                               view_list (h1 ++ [OList [cr]]) s = Some seg).
    { intros s seg Hs Hvs. apply view_list_app.
      apply (view_list_update hc segments s srefs); auto. }
    repeat split.
    + exists (update (segments - length h0) (OList (srefs ++ [current])) ext
              ++ [OList [cr]]).
      unfold h1. subst hc. rewrite update_app_r by exact Hsg.
      now rewrite app_assoc.
    + exact Hsg.
    + rewrite Hlen. subst hc. rewrite length_app. lia.
    + lia.
    + exists (srefs ++ [current]). repeat split.
      * apply read_list_app. unfold h1. now apply read_list_update_eq with (items := srefs).
      * apply Forall_app. split.
        -- apply Forall_forall. intros s Hin.
           rewrite Forall_forall in Hfa. destruct (Hfa s Hin) as (Hs1 & Hs2 & Hs3).
           destruct (read_all_In _ _ _ s Hsegs Hin) as [seg Hseg].
           apply view_list_lt in Hseg. repeat split; [exact Hs1 | lia | exact Hs3].
        -- constructor; [|constructor]. repeat split; [exact Hc | lia | congruence].
      * cbn [fst]. apply read_all_app.
        -- apply read_all_mono with (rd := view_list hc); [|exact Hsegs].
           intros s seg Hin Hvs. apply Hv; [|exact Hvs].
           rewrite Forall_forall in Hfa. now destruct (Hfa s Hin) as (_ & _ & ?).
        -- simpl. rewrite (Hv current curP); [reflexivity | congruence | exact Hcur].
      * cbn [snd]. unfold view_list. rewrite Hlen.
        replace (length hc) with (length h1) by exact Hlen.
        rewrite read_list_new. simpl. now rewrite (Hd cr cm Hcr').
  - unfold view_list in Hcur.
    destruct (read_list hc current) as [citems|] eqn:Ecl; [|discriminate].
    unfold append, ret. rewrite Ecl.
    set (h1 := update current (OList (citems ++ [cr])) hc).
    exists current, h1. split; [reflexivity|].
    assert (Hd : forall r m, read_dict hc r = Some m -> read_dict h1 r = Some m).
    { intros r m Hr. unfold h1.
      now rewrite (read_dict_update hc current r citems _ Ecl). }
    repeat split.
    + exists (update (current - length h0) (OList (citems ++ [cr])) ext).
      unfold h1. subst hc. now rewrite update_app_r by exact Hc.
    + exact Hsg.
    + exact Hc.
    + exact Hne.
    + exists srefs. repeat split.
      * unfold h1. rewrite read_list_update_ne; [exact Hrl | congruence].
      * exact Hfa.
      * cbn [fst]. apply read_all_mono with (rd := view_list hc); [|exact Hsegs].
        intros s seg Hin Hvs. unfold h1.
        apply (view_list_update hc current s citems); auto.
        rewrite Forall_forall in Hfa. destruct (Hfa s Hin) as (_ & ? & _). congruence.
      * cbn [snd]. unfold view_list, h1.
        rewrite (read_list_update_eq hc current citems _ Ecl).
        apply read_all_app.
        -- apply read_all_mono with (rd := read_dict hc); [|exact Hcur].
           intros r m _. apply Hd.
        -- simpl. fold h1. now rewrite (Hd cr cm Hcr').
Qed.

Lemma fold_st_inv (rps : list (nat * nat)) (mps : list (message * message)) :
  Forall2 (denotes h0) rps mps ->
  forall hc current st,
    seg_inv h0 segments hc current st ->
    exists current' hc',
      fold_st (seg_step_st gap segments) rps current hc = Some (current', hc')
      /\ seg_inv h0 segments hc' current' (fold_left (seg_step gap) mps st).
Proof.
  induction 1 as [|rp mp rps mps Hd _ IH]; intros hc current st Hinv.
  - exists current, hc. split; [reflexivity | exact Hinv].
  - destruct (seg_step_st_inv hc current st rp mp Hinv Hd) as (c1 & h1 & E1 & Hinv1).
    destruct (IH h1 c1 _ Hinv1) as (c2 & h2 & E2 & Hinv2).
    exists c2, h2. split; [|exact Hinv2].
    cbn [fold_st]. unfold bind_st. now rewrite E1.
Qed.

End Loop.

End Store.

Section SortedCopy.

Context {A B : Type}.
Variable key : A -> Z.

Lemma map_fst_insert_by (p : A * B) (l : list (A * B)) :
  map fst (insert_by (fun kr => key (fst kr)) p l)
  = insert_by key (fst p) (map fst l).
Proof.
  induction l as [|q l IH]; simpl; [reflexivity|].
  destruct (key (fst p) <=? key (fst q)); simpl; [reflexivity|].
  now rewrite IH.
Qed.

Lemma map_fst_sorted (l : list (A * B)) :
  map fst (sorted (fun kr => key (fst kr)) l) = sorted key (map fst l).
Proof.
  induction l as [|p l IH]; simpl; [reflexivity|].
  now rewrite map_fst_insert_by, IH.
Qed.

End SortedCopy.

Lemma Forall2_combine_fst {A B : Type} (R : B -> A -> Prop) (l : list B) :
  forall xs, Forall2 R l xs ->
             map fst (combine xs l) = xs
             /\ map snd (combine xs l) = l
             /\ Forall (fun p => R (snd p) (fst p)) (combine xs l).
Proof.
  induction 1 as [|b x l xs Hr _ (IH1 & IH2 & IH3)]; simpl.
  - repeat split; constructor.
  - rewrite IH1, IH2. repeat split. now constructor.
Qed.

Lemma Forall_pairs_Forall2 {A B : Type} (R : B -> A -> Prop) (lp : list (A * B)) :
  Forall (fun p => R (snd p) (fst p)) lp -> Forall2 R (map snd lp) (map fst lp).
Proof. induction 1; simpl; constructor; assumption. Qed.

Lemma Forall2_combine_tail {A B : Type} (R : B -> A -> Prop)
  (l : list B) (xs : list A) :
  Forall2 R l xs ->
  Forall2 (fun rp mp => R (fst rp) (fst mp) /\ R (snd rp) (snd mp))
    (combine l (tl l)) (combine xs (tl xs)).
Proof.
  induction 1 as [|b x l xs Hr Hrest IH]; simpl; [constructor|].
  destruct Hrest as [|b' x' l' xs' Hr' Hrest']; simpl in *; constructor.
  - now split.
  - exact IH.
Qed.

(** The list built by [sorted] refers to the caller's messages, in sorted
    order. *)
Lemma ordered_copy (h : heap) (items : list nat) (ms : list message) :
  read_all (read_dict h) items = Some ms ->
  Forall2 (fun r m => read_dict h r = Some m)
    (map snd (sorted (fun kr => sort_key (fst kr)) (combine ms items)))
    (sorted sort_key ms).
Proof.
  intros H. apply read_all_Forall2 in H.
  destruct (Forall2_combine_fst _ items ms H) as (H1 & _ & H3).
  rewrite <- H1 at 2. rewrite <- map_fst_sorted.
  apply Forall_pairs_Forall2 with (R := fun r m => read_dict h r = Some m).
  eapply Permutation_Forall; [|exact H3].
  symmetry. apply sorted_perm.
Qed.

Lemma sorted_nonempty (m : message) (ms : list message) :
  sorted sort_key (m :: ms) <> [].
Proof.
  intros E. pose proof (sorted_perm sort_key (m :: ms)) as P.
  rewrite E in P. now apply Permutation_nil in P.
Qed.

(** C10.  A call of [split_segments] on a list object of the caller's
    store ends with every object of the caller as it was (the store has
    only grown: the list still holds the same messages in the same order,
    and no message dictionary has changed), and returns a new list of new
    list objects whose messages are the segments. *)
Theorem split_segments_keeps_input
  (h : heap) (messages : nat) (ms : list message) (gap_seconds : Z) :
  view_list h messages = Some ms ->
  exists r h' ext,
    split_segments_st messages gap_seconds h = Some (r, h')
    /\ h' = h ++ ext
    /\ view_list h' messages = Some ms
    /\ view_segments h' r = Some (split_segments ms gap_seconds)
    /\ (length h <= r)%nat
    /\ exists srefs,
         read_list h' r = Some srefs /\ Forall (fun s => (length h <= s)%nat) srefs.
Proof.
  intros Hv. pose proof Hv as Hv0. unfold view_list in Hv.
  destruct (read_list h messages) as [items|] eqn:Erl; [|discriminate].
  unfold split_segments_st, bind_st, lift. rewrite Erl.
  destruct items as [|i0 items'].
  - simpl in Hv. injection Hv as <-. unfold alloc.
    exists (length h), (h ++ [OList []]), [OList []].
    split; [reflexivity|]. split; [reflexivity|].
    split; [now apply view_list_app|].
    split; [unfold view_segments; now rewrite read_list_new|].
    split; [lia|]. exists []. split; [apply read_list_new | constructor].
  - rewrite Hv. pose proof (ordered_copy h _ ms Hv) as Hord.
    destruct ms as [|m0 ms']; [now apply read_all_length in Hv|].
    cbv zeta.
    set (ordered := map snd (sorted (fun kr => sort_key (fst kr))
                               (combine (m0 :: ms') (i0 :: items')))) in *.
    clearbody ordered.
    unfold split_segments.
    destruct (sorted sort_key (m0 :: ms')) as [|mfirst mrest] eqn:Es;
      [now elim (sorted_nonempty m0 ms')|].
    pose proof (Forall2_combine_tail _ _ _ Hord) as Hpairs.
    inversion Hord as [|first mf rest mr Hfirst Hrest Eo Em]. subst ordered mf mr.
    clear Hord. cbn [tl] in Hpairs.
    unfold alloc at 1 2 3. cbn beta iota.
    set (h1 := h ++ [OList (first :: rest)]).
    set (h2 := h1 ++ [OList []]).
    set (h3 := h2 ++ [OList [first]]).
    assert (Hinv : seg_inv h (length h1) h3 (length h2) ([], [mfirst])).
    { unfold h3, h2, h1. repeat split.
      - exists [OList (first :: rest); OList []; OList [first]].
        now rewrite <- !app_assoc.
      - rewrite length_app. lia.
      - rewrite !length_app. lia.
      - rewrite !length_app. simpl. lia.
      - exists []. repeat split.
        + apply read_list_app, read_list_new.
        + constructor.
        + unfold view_list. rewrite read_list_new. simpl.
          now rewrite (read_dict_app _ _ _ _
                         (read_dict_app _ _ _ _ (read_dict_app _ _ _ _ Hfirst))). }
    destruct (fold_st_inv h gap_seconds (length h1) _ _ Hpairs h3 (length h2) _ Hinv)
      as (c' & hc' & Efold & Hinv').
    rewrite Efold.
    destruct (fold_left (seg_step gap_seconds) (combine (mfirst :: mrest) mrest) ([], [mfirst]))
      as [segsP curP].
    destruct Hinv' as ([ext Hext] & Hsg & Hc & Hne & srefs & Hrl & Hfa & Hsegs & Hcur).
    cbn [fst snd] in *. pose proof Hcur as Hcur0. unfold view_list in Hcur.
    destruct (read_list hc' c') as [left|] eqn:El; [|discriminate].
    assert (Hmsgs : forall hx ex, hx = h ++ ex -> view_list hx messages = Some (m0 :: ms')).
    { intros hx ex ->. now apply view_list_app. }
    pose proof (read_all_length _ _ _ Hcur) as Hlen.
    destruct left as [|l0 left'].
    + destruct curP; [|discriminate]. unfold ret.
      exists (length h1), hc', ext.
      split; [reflexivity|]. split; [exact Hext|].
      split; [now apply (Hmsgs hc' ext)|].
      split; [unfold view_segments; now rewrite Hrl|].
      split; [exact Hsg|]. exists srefs. split; [exact Hrl|].
      eapply Forall_impl; [|exact Hfa]. intros s Hs. apply Hs.
    + destruct curP as [|x curP']; [discriminate|]. unfold append, ret. rewrite Hrl.
      set (h4 := update (length h1) (OList (srefs ++ [c'])) hc').
      exists (length h1), h4,
        (update (length h1 - length h) (OList (srefs ++ [c'])) ext).
      assert (E4 : h4 = h ++ update (length h1 - length h) (OList (srefs ++ [c'])) ext).
      { unfold h4. rewrite Hext. now apply update_app_r. }
      split; [reflexivity|]. split; [exact E4|].
      split; [now apply (Hmsgs h4 _ E4)|].
      split.
      { unfold view_segments, h4.
        rewrite (read_list_update_eq hc' (length h1) srefs _ Hrl).
        apply read_all_app.
        - apply read_all_mono with (rd := view_list hc'); [|exact Hsegs].
          intros s seg Hin Hvs. apply (view_list_update hc' (length h1) s srefs); auto.
          rewrite Forall_forall in Hfa. destruct (Hfa s Hin) as (_ & _ & ?). congruence.
        - simpl.
          rewrite (view_list_update hc' (length h1) c' srefs _ (x :: curP') Hrl Hne Hcur0).
          reflexivity. }
      split; [exact Hsg|]. exists (srefs ++ [c']). split.
      * unfold h4. now apply read_list_update_eq with (items := srefs).
      * apply Forall_app. split.
        -- eapply Forall_impl; [|exact Hfa]. intros s Hs. apply Hs.
        -- constructor; [exact Hc | constructor].
Qed.

Lemma split_segments_keeps_input_witness :
  view_list sample_heap 3 = Some [u 5; a 6; u 0]
  /\ exists r h' ext,
       split_segments_st 3 1800 sample_heap = Some (r, h')
       /\ h' = sample_heap ++ ext
       /\ view_list h' 3 = Some [u 5; a 6; u 0]
       /\ view_segments h' r = Some (split_segments [u 5; a 6; u 0] 1800)
       /\ (length sample_heap <= r)%nat
       /\ exists srefs,
            read_list h' r = Some srefs
            /\ Forall (fun s => (length sample_heap <= s)%nat) srefs.
Proof.
  split; [reflexivity|].
  apply (split_segments_keeps_input sample_heap 3 [u 5; a 6; u 0] 1800).
  reflexivity.
Defined.

(* ===================================================================== *)
(** ** Further properties of [split_segments]                             *)
(* ===================================================================== *)

Section SegmentShape.

Variable gap : Z.

Lemma chunks_no_empty (rest : list message) :
  forall prev, forallb (fun s => negb (is_nil s)) (snd (chunks gap prev rest)) = true.
Proof.
  induction rest as [|cur rest' IH]; intros prev; [reflexivity|].
  cbn [chunks]. specialize (IH cur).
  destruct (chunks gap cur rest') as [s more].
  destruct (boundary gap prev cur); exact IH.
Qed.

End SegmentShape.

Lemma boundary_antitone (g g' : Z) (p c : message) :
  g <= g' -> boundary g' p c = true -> boundary g p c = true.
Proof.
  unfold boundary, time_gap. intros Hg.
  destruct (role_change p c); [now rewrite !orb_true_r|].
  rewrite !orb_false_r. destruct (time p), (time c); try discriminate.
  rewrite !Z.gtb_ltb, !Z.ltb_lt. lia.
Qed.

Lemma chunks_count_antitone (g g' : Z) (rest : list message) :
  g <= g' ->
  forall prev,
    (length (snd (chunks g' prev rest)) <= length (snd (chunks g prev rest)))%nat.
Proof.
  intros Hg. induction rest as [|cur rest' IH]; intros prev; [simpl; lia|].
  cbn [chunks]. specialize (IH cur).
  destruct (chunks g' cur rest') as [s' more'], (chunks g cur rest') as [s more].
  cbn [snd] in IH.
  destruct (boundary g' prev cur) eqn:E'.
  - rewrite (boundary_antitone g g' prev cur Hg E'). simpl. lia.
  - destruct (boundary g prev cur); simpl; lia.
Qed.

(** No segment is empty, and there are segments exactly when there are
    messages. *)
Theorem split_segments_no_empty_segment (messages : list message) (gap_seconds : Z) :
  forallb (fun s => negb (is_nil s)) (split_segments messages gap_seconds) = true
  /\ is_nil (split_segments messages gap_seconds) = is_nil messages.
Proof.
  rewrite split_segments_sorted.
  destruct messages as [|m ms]; [split; reflexivity|].
  destruct (sorted sort_key (m :: ms)) as [|first rest] eqn:Es;
    [now elim (sorted_nonempty m ms)|].
  unfold segments_of. pose proof (chunks_no_empty gap_seconds rest first) as H.
  destruct (chunks gap_seconds first rest) as [s more]. split; [exact H | reflexivity].
Qed.

(** Messages that come in non-decreasing key order (the time, 0 when it
    is absent) are not reordered: the segments cut the input list. *)
Theorem ordered_input_kept (messages : list message) (gap_seconds : Z) :
  StronglySorted key_le messages ->
  concat (split_segments messages gap_seconds) = messages.
Proof.
  intros Hs. rewrite concat_split_segments. now apply sorted_fixed.
Qed.

Lemma ordered_input_kept_witness :
  concat (split_segments [u (-3); a_untimed; u 0; a 7; a 7] 1800)
  = [u (-3); a_untimed; u 0; a 7; a 7].
Proof.
  apply ordered_input_kept.
  repeat (apply SSorted_cons;
          [|repeat (apply Forall_cons; [vm_compute; discriminate|]);
            apply Forall_nil]).
  apply SSorted_nil.
Defined.

(** A larger threshold never gives more segments. *)
Theorem larger_gap_fewer_segments (messages : list message) (g g' : Z) :
  g <= g' ->
  (length (split_segments messages g') <= length (split_segments messages g))%nat.
Proof.
  intros Hg. rewrite !split_segments_sorted.
  destruct (sorted sort_key messages) as [|first rest]; [simpl; lia|].
  unfold segments_of. pose proof (chunks_count_antitone g g' rest Hg first) as H.
  destruct (chunks g' first rest), (chunks g first rest). simpl in *. lia.
Qed.

Lemma larger_gap_fewer_segments_witness :
  (length (split_segments [u 0; u 100; u 5000] 1800)
   <= length (split_segments [u 0; u 100; u 5000] 60))%nat.
Proof. apply larger_gap_fewer_segments. lia. Defined.


(* ===================================================================== *)
(** ** The files written                                                  *)
(* ===================================================================== *)

Example sample_export_run :
  map fst (fst (process_file no_repr no_float no_strftime module_loaded
                  sample_export "out"))
  = ["out/conv000_thread00_seg00.md"; "out/conv000_thread00_seg01.md";
     "out/conv000_thread01_seg00.md"; "out/conv001_thread00_seg00.md"]%string
  /\ snd (process_file no_repr no_float no_strftime module_loaded sample_export "out")
     = Ok tt.
Proof. vm_compute. split; reflexivity. Qed.

Example segment_name_wide : segment_name 1234 7 100 = "conv1234_thread07_seg100.md"%string.
Proof. reflexivity. Qed.

Example segment_text_sample :
  segment_text no_repr no_strftime (VStr "T") 0 1 [mkMessage user "hi" None]
  = ("# T - Thread 0 Segment 1" ++ newline ++ newline
     ++ "**N/A - user:**" ++ newline ++ "hi" ++ newline ++ newline)%string.
Proof. reflexivity. Qed.

Section Names.

Local Open Scope string_scope.

Lemma append_cancel_l (p a b : string) : p ++ a = p ++ b -> a = b.
Proof.
  induction p as [|c p IH]; simpl; intros H; [exact H|].
  injection H as H. now apply IH.
Qed.

Lemma all_digits_app (s t : string) :
  all_digits (s ++ t) = all_digits s && all_digits t.
Proof.
  induction s as [|c s IH]; simpl; [reflexivity|].
  now rewrite IH, andb_assoc.
Qed.

Lemma all_digits_zeros (k : nat) : all_digits (zeros k) = true.
Proof. induction k as [|k IH]; simpl; [reflexivity | exact IH]. Qed.

Lemma all_digits_uint (d : Decimal.uint) :
  all_digits (NilEmpty.string_of_uint d) = true.
Proof. induction d; simpl; auto. Qed.

Lemma all_digits_pad (w n : nat) : all_digits (pad w n) = true.
Proof.
  unfold pad, dec. now rewrite all_digits_app, all_digits_zeros, all_digits_uint.
Qed.

Lemma number_of_zeros (k : nat) (s : string) :
  number_of (zeros k ++ s) = number_of s.
Proof.
  induction k as [|k IH]; [reflexivity|].
  unfold number_of in *.
  change (zeros (S k) ++ s) with (String "0" (zeros k ++ s)).
  cbn [NilEmpty.uint_of_string]. rewrite <- IH.
  destruct (NilEmpty.uint_of_string (zeros k ++ s)) as [d|]; reflexivity.
Qed.

(** The padded digits of a number read back as the number. *)
Lemma number_of_pad (w n : nat) : number_of (pad w n) = Some n.
Proof.
  unfold pad. rewrite number_of_zeros. unfold number_of, dec.
  rewrite NilEmpty.usu. simpl. now rewrite DecimalNat.Unsigned.of_to.
Qed.

Lemma pad_inj (w n n' : nat) : pad w n = pad w n' -> n = n'.
Proof.
  intros H. pose proof (number_of_pad w n) as E. rewrite H, number_of_pad in E.
  congruence.
Qed.

(** Digits followed by something that is no digit split in one way. *)
Lemma digits_split (d1 : string) :
  forall d2 c1 r1 c2 r2,
    all_digits d1 = true -> all_digits d2 = true ->
    is_digit c1 = false -> is_digit c2 = false ->
    d1 ++ String c1 r1 = d2 ++ String c2 r2 ->
    d1 = d2 /\ String c1 r1 = String c2 r2.
Proof.
  induction d1 as [|a d1 IH]; intros d2 c1 r1 c2 r2 H1 H2 Hc1 Hc2 E.
  - destruct d2 as [|b d2]; [now split|].
    simpl in E, H2. injection E as -> _.
    apply andb_prop in H2 as [H2 _]. congruence.
  - destruct d2 as [|b d2].
    + simpl in E, H1. injection E as -> _.
      apply andb_prop in H1 as [H1 _]. congruence.
    + simpl in E, H1, H2. injection E as -> E.
      apply andb_prop in H1 as [_ H1]. apply andb_prop in H2 as [_ H2].
      destruct (IH d2 c1 r1 c2 r2 H1 H2 Hc1 Hc2 E) as [-> Hr]. now split.
Qed.

Lemma segment_name_inj (c t s c' t' s' : nat) :
  segment_name c t s = segment_name c' t' s' -> c = c' /\ t = t' /\ s = s'.
Proof.
  unfold segment_name. intros E.
  apply (append_cancel_l "conv") in E.
  apply digits_split in E as [Ec E];
    [|apply all_digits_pad | apply all_digits_pad | reflexivity | reflexivity].
  apply (append_cancel_l "_thread") in E.
  apply digits_split in E as [Et E];
    [|apply all_digits_pad | apply all_digits_pad | reflexivity | reflexivity].
  apply (append_cancel_l "_seg") in E.
  apply digits_split in E as [Es _];
    [|apply all_digits_pad | apply all_digits_pad | reflexivity | reflexivity].
  repeat split; eapply pad_inj; eassumption.
Qed.

Lemma segment_name_relative (c t s : nat) :
  starts_with_slash (segment_name c t s) = false.
Proof. reflexivity. Qed.

Lemma path_join_inj (out_dir a b : string) :
  starts_with_slash a = false -> starts_with_slash b = false ->
  path_join out_dir a = path_join out_dir b -> a = b.
Proof.
  unfold path_join. intros -> ->.
  destruct (is_nil (list_ascii_of_string out_dir) || ends_with_slash out_dir);
    intros E; apply append_cancel_l in E; [exact E|].
  now apply (append_cancel_l "/") in E.
Qed.

End Names.

(** Two segments are written to the same file only if they are the same
    segment of the same thread of the same conversation. *)
Theorem segment_file_inj (out_dir : string) (c t s c' t' s' : nat) :
  path_join out_dir (segment_name c t s) = path_join out_dir (segment_name c' t' s') ->
  c = c' /\ t = t' /\ s = s'.
Proof.
  intros E. apply segment_name_inj.
  apply (path_join_inj out_dir); [apply segment_name_relative .. | exact E].
Qed.

Lemma segment_file_inj_witness :
  path_join "out/" (segment_name 12 3 100) = path_join "out/" (segment_name 12 3 100)
  /\ 12%nat = 12%nat /\ 3%nat = 3%nat /\ 100%nat = 100%nat.
Proof.
  split; [reflexivity|].
  apply (segment_file_inj "out/" 12 3 100 12 3 100). reflexivity.
Defined.

Section Dict.

Context {A : Type}.

Lemma dict_get_set_eq (k : string) (v : A) (d : list (string * A)) :
  dict_get k (dict_set k v d) = Some v.
Proof.
  induction d as [|[k' v'] d IH]; simpl.
  - now rewrite String.eqb_refl.
  - destruct (String.eqb k k') eqn:E; simpl; rewrite ?String.eqb_refl, ?E; auto.
Qed.

Lemma dict_get_set_ne (k k' : string) (v : A) (d : list (string * A)) :
  k <> k' -> dict_get k' (dict_set k v d) = dict_get k' d.
Proof.
  intros Hne. induction d as [|[k0 v0] d IH]; simpl.
  - destruct (String.eqb_spec k' k); [congruence | reflexivity].
  - destruct (String.eqb_spec k k0) as [<- | Hk]; simpl.
    + destruct (String.eqb_spec k' k); [congruence | reflexivity].
    + destruct (String.eqb_spec k' k0); [reflexivity | exact IH].
Qed.

End Dict.

Lemma files_after_other (p : string) (ws : list (string * string)) :
  forall fs,
    ~ In p (map fst ws) ->
    dict_get p (fold_left (fun fs w => dict_set (fst w) (snd w) fs) ws fs)
    = dict_get p fs.
Proof.
  induction ws as [|w ws IH]; intros fs Hn; [reflexivity|].
  simpl in *. rewrite IH by tauto. apply dict_get_set_ne. tauto.
Qed.

(** When no name is written twice, each file ends with what was written
    to it. *)
Lemma files_after_kept (ws : list (string * string)) :
  NoDup (map fst ws) ->
  forall fs p c,
    In (p, c) ws ->
    dict_get p (fold_left (fun fs w => dict_set (fst w) (snd w) fs) ws fs) = Some c.
Proof.
  induction ws as [|w ws IH]; intros Hnd fs p c Hin; [contradiction|].
  simpl in Hnd. inversion Hnd as [|? ? Hw Hnd']; subst.
  destruct Hin as [-> | Hin]; simpl.
  - rewrite files_after_other by exact Hw. apply dict_get_set_eq.
  - now apply IH.
Qed.

Section Enumerate.

Context {A B : Type}.

Lemma enumerate_from_ge (l : list A) :
  forall k i x, In (i, x) (enumerate_from k l) -> (k <= i)%nat.
Proof.
  induction l as [|y l IH]; intros k i x H; [contradiction|].
  destruct H as [H | H]; [injection H as <- _; lia|].
  apply IH in H. lia.
Qed.

Lemma enumerate_from_NoDup (l : list A) :
  forall k, NoDup (map fst (enumerate_from k l)).
Proof.
  induction l as [|y l IH]; intros k; simpl; constructor; [|apply IH].
  intros H. apply in_map_iff in H as ([i x] & E & H). simpl in E. subst i.
  apply enumerate_from_ge in H. lia.
Qed.

Lemma map_flat_map {C D : Type} (f : C -> D) (g : A -> list C) (l : list A) :
  map f (flat_map g l) = flat_map (fun x => map f (g x)) l.
Proof.
  induction l as [|x l IH]; simpl; [reflexivity|]. now rewrite map_app, IH.
Qed.

Lemma NoDup_map_inj_in (f : A -> B) (l : list A) :
  (forall x y, In x l -> In y l -> f x = f y -> x = y) ->
  NoDup l -> NoDup (map f l).
Proof.
  intros Hf Hnd. induction Hnd as [|x l Hx Hnd IH]; simpl; constructor.
  - intros H. apply in_map_iff in H as (y & E & Hy).
    rewrite (Hf y x (or_intror Hy) (or_introl eq_refl) E) in Hy. contradiction.
  - apply IH. intros a b Ha Hb. apply Hf; now right.
Qed.

(** Lists made for different indices and without a common element make
    a list without repetition. *)
Lemma NoDup_flat_map_enum (f : nat -> A -> list B) (l : list A) :
  (forall i x, NoDup (f i x)) ->
  (forall i j x y b, i <> j -> In b (f i x) -> In b (f j y) -> False) ->
  forall k, NoDup (flat_map (fun kx => f (fst kx) (snd kx)) (enumerate_from k l)).
Proof.
  intros Hnd Hdis. induction l as [|a l IH]; intros k; simpl; [constructor|].
  apply NoDup_app; [apply Hnd | apply IH|].
  intros b Hb Hb'. apply in_flat_map in Hb' as ([j y] & Hj & Hb'). simpl in Hb'.
  apply enumerate_from_ge in Hj. apply (Hdis k j a y b); [lia | exact Hb | exact Hb'].
Qed.

End Enumerate.

Section Files.

Variable repr_container : value -> string.
Variable float_of_string : string -> option Z.
Variable strftime_local : Z -> Z -> option string.
Variable m : module_state.
Variable out_dir : string.

Lemma save_segments_names (title : value) (c t : nat) (segments : list (list message)) :
  map fst (save_segments repr_container strftime_local title c t segments out_dir)
  = map (segment_file out_dir c t) (map fst (enumerate_from 0 segments)).
Proof.
  unfold save_segments. rewrite !map_map. reflexivity.
Qed.

Lemma save_segments_NoDup (title : value) (c t : nat) (segments : list (list message)) :
  NoDup (map fst (save_segments repr_container strftime_local title c t segments out_dir)).
Proof.
  rewrite save_segments_names. apply NoDup_map_inj_in; [|apply enumerate_from_NoDup].
  intros s s' _ _ E. now apply segment_file_inj in E.
Qed.

Lemma save_segments_thread (title : value) (c t : nat)
  (segments : list (list message)) (p : string) :
  In p (map fst (save_segments repr_container strftime_local title c t segments out_dir)) ->
  exists s, p = segment_file out_dir c t s.
Proof.
  rewrite save_segments_names. intros H. apply in_map_iff in H as (s & <- & _).
  now exists s.
Qed.

Lemma process_conversation_names (idx : nat) (conv : value) (ws : list (string * string)) :
  process_conversation repr_container float_of_string strftime_local m out_dir idx conv
  = Ok ws ->
  NoDup (map fst ws)
  /\ forall p, In p (map fst ws) -> exists t s, p = segment_file out_dir idx t s.
Proof.
  unfold process_conversation.
  destruct (py_get conv "title" VNone) as [title| |]; cbn [bind]; try discriminate.
  destruct (py_get conv "mapping" (VDict [])) as [mapping| |]; cbn [bind];
    try discriminate.
  destruct (reconstruct_threads repr_container float_of_string mapping)
    as [threads| |]; cbn [bind]; try discriminate.
  intros H. injection H as <-. rewrite map_flat_map. split.
  - apply (NoDup_flat_map_enum
             (fun t thread =>
                map fst (save_segments repr_container strftime_local
                           (py_or title (VStr ("Conversation " ++ dec idx))) idx t
                           (split_segments thread (split_segments_default m)) out_dir))).
    + intros t thread. apply save_segments_NoDup.
    + intros t t' thread thread' p Hne Hp Hp'.
      apply save_segments_thread in Hp as [s ->].
      apply save_segments_thread in Hp' as [s' E].
      apply segment_file_inj in E. tauto.
  - intros p Hp. apply in_flat_map in Hp as ([t thread] & _ & Hp). cbn [fst snd] in Hp.
    apply save_segments_thread in Hp as [s ->]. now exists t, s.
Qed.

Lemma process_conversations_names (convs : list value) :
  forall idx,
    NoDup (map fst (fst (process_conversations repr_container float_of_string
                           strftime_local m out_dir idx convs)))
    /\ forall p,
         In p (map fst (fst (process_conversations repr_container float_of_string
                               strftime_local m out_dir idx convs))) ->
         exists c t s, (idx <= c)%nat /\ p = segment_file out_dir c t s.
Proof.
  induction convs as [|conv convs IH]; intros idx; cbn [process_conversations].
  - split; [constructor | intros p []].
  - destruct (process_conversation repr_container float_of_string strftime_local
                m out_dir idx conv) as [ws| |] eqn:E;
      try (split; [constructor | intros p []]).
    destruct (process_conversation_names idx conv ws E) as [Hnd Hnames].
    destruct (IH (S idx)) as [Hnd' Hnames'].
    destruct (process_conversations repr_container float_of_string strftime_local
                m out_dir (S idx) convs) as [ws' r]. cbn [fst] in *.
    rewrite map_app. split.
    + apply NoDup_app; [exact Hnd | exact Hnd'|].
      intros p Hp Hp'. destruct (Hnames p Hp) as (t & s & ->).
      destruct (Hnames' _ Hp') as (c' & t' & s' & Hc & E').
      apply segment_file_inj in E'. lia.
    + intros p Hp. apply in_app_or in Hp as [Hp | Hp].
      * destruct (Hnames p Hp) as (t & s & ->). exists idx, t, s. split; [lia | reflexivity].
      * destruct (Hnames' p Hp) as (c & t & s & Hc & ->). exists c, t, s.
        split; [lia | reflexivity].
Qed.

Lemma process_file_NoDup (conversations : value) :
  NoDup (map fst (fst (process_file repr_container float_of_string strftime_local
                         m conversations out_dir))).
Proof.
  unfold process_file. destruct (py_iter conversations) as [convs| |];
    try (simpl; constructor).
  apply process_conversations_names.
Qed.

Lemma process_conversations_app (l1 : list value) :
  forall idx l2,
    process_conversations repr_container float_of_string strftime_local m out_dir
      idx (l1 ++ l2)
    = let (w1, r1) := process_conversations repr_container float_of_string
                        strftime_local m out_dir idx l1 in
      match r1 with
      | Ok _ =>
          let (w2, r2) := process_conversations repr_container float_of_string
                            strftime_local m out_dir (idx + length l1) l2 in
          (w1 ++ w2, r2)
      | _ => (w1, r1)
      end.
Proof.
  induction l1 as [|conv l1 IH]; intros idx l2.
  - cbn [app process_conversations length]. rewrite Nat.add_0_r.
    now destruct (process_conversations _ _ _ _ _ idx l2).
  - cbn [app process_conversations length].
    destruct (process_conversation repr_container float_of_string strftime_local
                m out_dir idx conv) as [ws| |]; try reflexivity.
    rewrite IH. replace (S idx + length l1)%nat with (idx + S (length l1))%nat by lia.
    destruct (process_conversations _ _ _ _ _ (S idx) l1) as [w1 r1].
    destruct r1 as [[]| |]; try reflexivity.
    destruct (process_conversations _ _ _ _ _ (idx + S (length l1))%nat l2) as [w2 r2].
    now rewrite app_assoc.
Qed.

End Files.

(** No file is written twice in a run: when [process_file] ends without
    an exception, each file written holds the text of its segment. *)
Theorem every_segment_file_kept
  (repr_container : value -> string) (float_of_string : string -> option Z)
  (strftime_local : Z -> Z -> option string) (m : module_state)
  (conversations : value) (out_dir p c : string) :
  snd (process_file repr_container float_of_string strftime_local
         m conversations out_dir) = Ok tt ->
  In (p, c) (fst (process_file repr_container float_of_string strftime_local
                    m conversations out_dir)) ->
  dict_get p (files_after
                (fst (process_file repr_container float_of_string strftime_local
                        m conversations out_dir)))
  = Some c.
Proof.
  intros _ Hin. unfold files_after. apply files_after_kept; [|exact Hin].
  apply process_file_NoDup.
Qed.

Lemma every_segment_file_kept_witness :
  snd (process_file no_repr no_float no_strftime module_loaded sample_export "out")
  = Ok tt
  /\ dict_get "out/conv000_thread01_seg00.md"
       (files_after (fst (process_file no_repr no_float no_strftime module_loaded
                            sample_export "out")))
     = Some (segment_text no_repr no_strftime (VStr "First") 1 0
               [mkMessage user ("q" ++ newline ++ "7") None]).
Proof.
  split; [reflexivity|].
  apply (every_segment_file_kept no_repr no_float no_strftime module_loaded
           sample_export "out").
  - reflexivity.
  - vm_compute. right. right. left. reflexivity.
Defined.

(** A conversation that raises ends the run: the files of the
    conversations before it are written, those of the conversations after
    it are not. *)
Theorem run_stops_at_first_exception
  (repr_container : value -> string) (float_of_string : string -> option Z)
  (strftime_local : Z -> Z -> option string) (m : module_state)
  (l1 l2 : list value) (conv : value) (out_dir : string)
  (ws : list (string * string)) (e : exn) :
  process_file repr_container float_of_string strftime_local m (VList l1) out_dir
  = (ws, Ok tt) ->
  process_conversation repr_container float_of_string strftime_local m out_dir
    (length l1) conv = Raise e ->
  process_file repr_container float_of_string strftime_local m
    (VList (l1 ++ conv :: l2)) out_dir
  = (ws, Raise e).
Proof.
  unfold process_file. cbn [py_iter]. intros H1 Hc.
  rewrite process_conversations_app, H1. cbn [process_conversations Nat.add].
  now rewrite Hc, app_nil_r.
Qed.

Lemma run_stops_at_first_exception_witness :
  map fst (fst (process_file no_repr no_float no_strftime module_loaded
                  broken_export "out"))
  = ["out/conv000_thread00_seg00.md"%string]
  /\ snd (process_file no_repr no_float no_strftime module_loaded broken_export "out")
     = Raise AttributeError.
Proof.
  unfold broken_export.
  rewrite (run_stops_at_first_exception no_repr no_float no_strftime module_loaded
             [obj [("mapping", scenario1_mapping)]%string]
             [obj [("mapping", branch_mapping)]%string]
             broken_conversation "out"
             (fst (process_file no_repr no_float no_strftime module_loaded
                     (VList [obj [("mapping", scenario1_mapping)]%string]) "out"))
             AttributeError).
  - split; reflexivity.
  - reflexivity.
  - reflexivity.
Defined.

Lemma process_conversations_gap
  (repr_container : value -> string) (float_of_string : string -> option Z)
  (strftime_local : Z -> Z -> option string)
  (g g' : Z) (m : module_state) (out_dir : string) (convs : list value) :
  forall idx,
    process_conversations repr_container float_of_string strftime_local
      (set_gap g m) out_dir idx convs
    = process_conversations repr_container float_of_string strftime_local
        (set_gap g' m) out_dir idx convs.
Proof.
  induction convs as [|conv convs IH]; intros idx; [reflexivity|].
  cbn [process_conversations]. rewrite (IH (S idx)). reflexivity.
Qed.

(** The value of [--gap-minutes] changes the files in one way only: by
    making [main] raise at line 145, when [gap_minutes * 60] is an infinity
    or not-a-number.  Otherwise the run is the one of the default: line
    145 rebinds the global [GAP_SECONDS], and [process_file] calls
    [split_segments] without a threshold, whose default, 1800, was taken
    when the function was defined. *)
Theorem gap_option_has_no_effect
  (repr_container : value -> string) (float_of_string : string -> option Z)
  (strftime_local : Z -> Z -> option string)
  (gap_minutes : spec_float) (conversations : value) (out_dir : string) :
  (forall gap_seconds,
      py_int (SFmul 53 1024 gap_minutes float_60) = Ok gap_seconds ->
      main repr_container float_of_string strftime_local gap_minutes
        conversations out_dir
      = process_file repr_container float_of_string strftime_local module_loaded
          conversations out_dir)
  /\ (forall e,
        py_int (SFmul 53 1024 gap_minutes float_60) = Raise e ->
        main repr_container float_of_string strftime_local gap_minutes
          conversations out_dir
        = ([], Raise e)).
Proof.
  unfold main. split.
  - intros g ->. unfold process_file.
    destruct (py_iter conversations) as [convs| |]; try reflexivity.
    apply (process_conversations_gap repr_container float_of_string strftime_local
             g 1800 module_loaded out_dir convs 0%nat).
  - now intros e ->.
Qed.

Lemma gap_option_has_no_effect_witness :
  py_int (SFmul 53 1024 float_half float_60) = Ok 30
  /\ map fst (fst (main no_repr no_float no_strftime float_half
                     two_messages_export "out"))
     = ["out/conv000_thread00_seg00.md"%string]
  /\ main no_repr no_float no_strftime (S754_infinity false) two_messages_export "out"
     = ([], Raise OverflowError)
  /\ main no_repr no_float no_strftime S754_nan two_messages_export "out"
     = ([], Raise ValueError).
Proof.
  split; [reflexivity|].
  split.
  - rewrite (proj1 (gap_option_has_no_effect no_repr no_float no_strftime float_half
                      two_messages_export "out") 30 eq_refl).
    reflexivity.
  - split.
    + apply (proj2 (gap_option_has_no_effect no_repr no_float no_strftime
                      (S754_infinity false) two_messages_export "out")).
      reflexivity.
    + apply (proj2 (gap_option_has_no_effect no_repr no_float no_strftime
                      S754_nan two_messages_export "out")).
      reflexivity.
Defined.

(* ===================================================================== *)
(** ** Further properties of [reconstruct_threads]                        *)
(* ===================================================================== *)

Lemma dict_get_In_pair {A : Type} (k : string) (d : list (string * A)) (v : A) :
  dict_get k d = Some v -> In (k, v) d.
Proof.
  induction d as [|[k' v'] d IH]; simpl; [discriminate|].
  destruct (String.eqb_spec k k') as [<- | Hne].
  - intros H. injection H as <-. now left.
  - intros H. right. now apply IH.
Qed.

Lemma Forall_dict_set {A : Type} (P : string * A -> Prop) (k : string) (v : A)
  (d : list (string * A)) :
  P (k, v) -> Forall P d -> Forall P (dict_set k v d).
Proof.
  intros Hkv. induction 1 as [|[k' v'] d Hx Hd IH]; simpl.
  - now constructor.
  - destruct (String.eqb k k'); constructor; auto.
Qed.

Lemma dict_set_fresh {A : Type} (k : string) (v : A) (d : list (string * A)) :
  ~ In k (map fst d) -> dict_set k v d = d ++ [(k, v)].
Proof.
  induction d as [|[k' v'] d IH]; simpl; intros H; [reflexivity|].
  destruct (String.eqb_spec k k') as [-> | Hne]; [tauto|].
  rewrite IH by tauto. reflexivity.
Qed.

Section ReconstructionShape.

Variable repr_container : value -> string.
Variable float_of_string : string -> option Z.

(** The helper form of the link between the result and the index. *)
Lemma reconstruct_ok_index (mapping : value) (threads : list (list message)) :
  reconstruct_threads repr_container float_of_string mapping = Ok threads ->
  exists nodes,
    index_of repr_container float_of_string mapping = Ok nodes
    /\ (length nodes <= dict_size mapping)%nat
    /\ threads = threads_by role_truthy nodes.
Proof.
  unfold reconstruct_threads. rewrite reconstruct_threads_index.
  destruct (index_of repr_container float_of_string mapping) as [nodes| |] eqn:E;
    cbn [bind]; try discriminate.
  intros H. exists nodes. pose proof (index_of_length _ _ _ _ E) as Hl.
  split; [reflexivity|]. split; [exact Hl|].
  pose proof (collect_threads nodes (S (dict_size mapping)) (leaves nodes)
                ltac:(lia) []) as Hc.
  rewrite H in Hc. exact Hc.
Qed.

Lemma build_node_id (mid : string) (data : value) (n : node) :
  build_node repr_container float_of_string mid data = Ok n -> n_id n = mid.
Proof.
  unfold build_node.
  repeat match goal with
         | |- bind ?c _ = Ok _ -> _ => destruct c; cbn [bind]; try discriminate
         end.
  intros H. now injection H as <-.
Qed.

Lemma build_nodes_keys (items : list (string * value)) :
  forall acc nodes,
    NoDup (map fst acc ++ map fst items) ->
    build_nodes repr_container float_of_string items acc = Ok nodes ->
    map fst nodes = map fst acc ++ map fst items.
Proof.
  induction items as [|[mid data] items IH]; intros acc nodes Hnd H; simpl in H.
  - injection H as <-. now rewrite app_nil_r.
  - destruct (build_node repr_container float_of_string mid data) as [n| |];
      cbn [bind] in H; try discriminate.
    assert (Hfresh : ~ In mid (map fst acc)).
    { simpl in Hnd. apply NoDup_remove_2 in Hnd. intros Hin. apply Hnd.
      apply in_or_app. now left. }
    rewrite (dict_set_fresh mid n acc Hfresh) in H.
    apply IH in H.
    + rewrite H, map_app, <- app_assoc. reflexivity.
    + rewrite map_app, <- app_assoc. exact Hnd.
Qed.

Lemma build_nodes_Forall (P : string * node -> Prop) (items : list (string * value)) :
  (forall mid data n,
      In (mid, data) items ->
      build_node repr_container float_of_string mid data = Ok n -> P (mid, n)) ->
  forall acc nodes,
    Forall P acc ->
    build_nodes repr_container float_of_string items acc = Ok nodes ->
    Forall P nodes.
Proof.
  induction items as [|[mid data] items IH]; intros HP acc nodes Hacc H; simpl in H.
  - now injection H as <-.
  - destruct (build_node repr_container float_of_string mid data) as [n| |] eqn:En;
      cbn [bind] in H; try discriminate.
    apply (IH (fun mid' data' n' Hin => HP mid' data' n' (or_intror Hin))
              (dict_set mid n acc)); [|exact H].
    apply Forall_dict_set; [|exact Hacc].
    apply (HP mid data n); [now left | exact En].
Qed.

End ReconstructionShape.

Section Chains.

Variable nodes : list (string * node).

(** A chain meets each node once at most. *)
Lemma parent_chain_length (fuel : nat) :
  forall cur seen,
    seen_ok nodes seen ->
    (length (parent_chain nodes fuel cur seen) + length seen <= length nodes)%nat.
Proof.
  induction fuel as [|fuel IH]; intros cur seen Hok.
  - simpl. now apply seen_ok_length.
  - pose proof (seen_ok_length nodes seen Hok) as Hl. cbn [parent_chain].
    destruct (truthy cur && hashable cur); cbn [andb]; [|simpl; lia].
    destruct (existsb (py_eq cur) seen) eqn:Em; cbn [negb]; [simpl; lia|].
    destruct (nodes_get cur nodes) as [n|] eqn:En; [|simpl; lia].
    pose proof (IH (n_parent n) (cur :: seen)
                  (seen_ok_cons nodes cur seen n Hok Em En)) as H.
    simpl in *. lia.
Qed.

Lemma thread_by_length (has_role : node -> bool) (leaf : string) :
  (length (thread_by has_role nodes leaf) <= length nodes)%nat.
Proof.
  unfold thread_by. rewrite length_rev, length_map.
  pose proof (parent_chain_length (S (length nodes)) (VStr leaf) []
                (conj (NoDup_nil _) (fun x (H : In x []) => match H with end))) as H.
  pose proof (filter_length_le has_role
                (parent_chain nodes (S (length nodes)) (VStr leaf) [])).
  change (length (@nil value)) with 0%nat in H. lia.
Qed.

Lemma thread_by_roles (leaf : string) :
  forallb (fun msg => truthy (role msg)) (thread_by role_truthy nodes leaf) = true.
Proof.
  unfold thread_by. apply forallb_forall. intros msg Hin.
  apply in_rev, in_map_iff in Hin as (n & <- & Hn).
  apply filter_In in Hn as [_ Hn]. exact Hn.
Qed.

Lemma walk_no_raise (fuel : nat) :
  Forall (fun kn => parent_ok (n_parent (snd kn)) = true) nodes ->
  forall cur seen path e,
    parent_ok cur = true ->
    walk nodes fuel cur seen path <> Raise e.
Proof.
  intros Hall. induction fuel as [|fuel IH]; intros cur seen path e Hcur;
    [discriminate|].
  cbn [walk]. unfold parent_ok in Hcur.
  destruct (truthy cur); cbn [negb orb] in *; [|discriminate].
  unfold set_mem. rewrite Hcur. cbn [bind].
  destruct (existsb (py_eq cur) seen); [discriminate|].
  destruct (nodes_get cur nodes) as [n|] eqn:En; [|discriminate].
  apply IH. destruct cur; try discriminate. simpl in En.
  apply dict_get_In_pair in En. rewrite Forall_forall in Hall.
  exact (Hall _ En).
Qed.

Lemma collect_no_raise (fuel : nat) (ls : list string) :
  Forall (fun kn => parent_ok (n_parent (snd kn)) = true) nodes ->
  forall acc e, collect nodes fuel ls acc <> Raise e.
Proof.
  intros Hall. induction ls as [|leaf ls IH]; intros acc e; [discriminate|].
  cbn [collect].
  pose proof (walk_no_raise fuel Hall (VStr leaf) [] []) as Hw.
  destruct (walk nodes fuel (VStr leaf) [] []) as [st|e'|]; cbn [bind].
  - apply IH.
  - now elim (Hw e' (orb_true_r _)).
  - discriminate.
Qed.

End Chains.

Section WellShaped.

Variable repr_container : value -> string.
Variable float_of_string : string -> option Z.

Lemma py_float_ok (ts : value) :
  time_ok ts = true ->
  exists t, py_float float_of_string ts = Ok t.
Proof.
  destruct ts; simpl; intros H; eauto. rewrite H. eauto.
Qed.

Lemma build_message_ok (mid : string) (parent children : value)
  (msg : list (string * value)) :
  field_ok msg "author" is_dict = true ->
  field_ok msg "content" content_ok = true ->
  field_ok msg "create_time" time_ok = true ->
  exists role text ts,
    (author <- py_get (VDict msg) "author" (VDict []) ;;
     role <- py_get author "role" VNone ;;
     content <- py_get (VDict msg) "content" (VDict []) ;;
     parts <- py_get content "parts" VNone ;;
     let parts := py_or parts (VList []) in
     ps <- py_iter parts ;;
     let text := join newline
                   (map (py_str repr_container)
                      (filter (fun p => negb (is_none p)) ps)) in
     ts <- py_get (VDict msg) "create_time" VNone ;;
     ts <- (if is_none ts then Ok None else py_float float_of_string ts) ;;
     Ok (mkNode mid parent children role text ts))
    = Ok (mkNode mid parent children role text ts).
Proof.
  unfold field_ok. intros Ha Hc Ht. cbn [py_get bind].
  assert (Hauth : exists a, (match dict_get "author" msg with
                             | Some v => v | None => VDict [] end) = VDict a).
  { destruct (dict_get "author" msg) as [[]|]; try discriminate; eauto. }
  destruct Hauth as [a ->]. cbn [py_get bind].
  assert (Hcont : exists c, (match dict_get "content" msg with
                             | Some v => v | None => VDict [] end) = VDict c
                            /\ field_ok c "parts" parts_ok = true).
  { destruct (dict_get "content" msg) as [[]|]; try discriminate; eauto. }
  destruct Hcont as (c & -> & Hp). cbn [py_get bind].
  assert (Hparts : exists ps,
             py_iter (py_or (match dict_get "parts" c with
                             | Some v => v | None => VNone end) (VList [])) = Ok ps).
  { unfold field_ok, parts_ok in Hp. unfold py_or.
    destruct (dict_get "parts" c) as [v|]; [|simpl; eauto].
    destruct (truthy v); cbn [negb orb] in Hp; [|simpl; eauto].
    destruct v; try discriminate; simpl; eauto. }
  destruct Hparts as [ps ->]. cbn [bind].
  destruct (dict_get "create_time" msg) as [tv|]; [|cbn; eauto].
  destruct (is_none tv) eqn:En; [cbn; eauto|].
  destruct (py_float_ok tv Ht) as [t ->]. cbn. eauto.
Qed.

Lemma build_node_ok (mid : string) (data : value) :
  node_ok data = true ->
  exists n,
    build_node repr_container float_of_string mid data = Ok n
    /\ parent_ok (n_parent n) = true.
Proof.
  destruct data as [| | | | |d]; try discriminate. unfold node_ok. intros H.
  apply andb_prop in H as [Hpar Hmsg]. unfold build_node. cbn [py_get bind].
  set (parent := match dict_get "parent" d with Some v => v | None => VNone end).
  assert (Hparent : parent_ok parent = true).
  { unfold parent, field_ok in *. now destruct (dict_get "parent" d). }
  set (children := py_or (match dict_get "children" d with
                          | Some v => v | None => VNone end) (VList [])).
  assert (Hm : exists msg,
             py_or (match dict_get "message" d with
                    | Some v => v | None => VNone end) (VDict []) = VDict msg
             /\ field_ok msg "author" is_dict = true
             /\ field_ok msg "content" content_ok = true
             /\ field_ok msg "create_time" time_ok = true).
  { unfold field_ok at 1 in Hmsg. unfold py_or, message_ok in *.
    destruct (dict_get "message" d) as [v|]; [|exists []; now repeat split].
    destruct (truthy v); cbn [negb orb] in Hmsg; [|exists []; now repeat split].
    destruct v as [| | | | |msg]; try discriminate. exists msg.
    apply andb_prop in Hmsg as [Hmsg Ht]. apply andb_prop in Hmsg as [Ha Hc].
    now repeat split. }
  destruct Hm as (msg & -> & Ha & Hc & Ht).
  destruct (build_message_ok mid parent children msg Ha Hc Ht) as (r & tx & ts & E).
  exists (mkNode mid parent children r tx ts). split; [exact E | exact Hparent].
Qed.

Lemma build_nodes_ok (items : list (string * value)) :
  forallb (fun kv => node_ok (snd kv)) items = true ->
  forall acc,
    Forall (fun kn => parent_ok (n_parent (snd kn)) = true) acc ->
    exists nodes,
      build_nodes repr_container float_of_string items acc = Ok nodes
      /\ Forall (fun kn => parent_ok (n_parent (snd kn)) = true) nodes.
Proof.
  induction items as [|[mid data] items IH]; intros Hall acc Hacc.
  - exists acc. now split.
  - simpl in Hall. apply andb_prop in Hall as [Hd Hall]. cbn [build_nodes].
    destruct (build_node_ok mid data Hd) as (n & -> & Hn). cbn [bind].
    apply (IH Hall). apply Forall_dict_set; [exact Hn | exact Hacc].
Qed.

End WellShaped.

(** On a mapping whose nodes are dictionaries with a falsy or hashable
    parent, a falsy or dictionary message, dictionary author and content
    when they are there, parts that are falsy, a string, a dictionary or a
    list of [None], booleans, strings and integers of at most 4300
    digits, and no integer time beyond the range of a float,
    [reconstruct_threads] returns a list of threads: it does not raise. *)
Theorem well_shaped_never_raises
  (repr_container : value -> string) (float_of_string : string -> option Z)
  (mapping : value) :
  well_shaped mapping = true ->
  exists threads,
    reconstruct_threads repr_container float_of_string mapping = Ok threads.
Proof.
  intros Hw. unfold reconstruct_threads. rewrite reconstruct_threads_index.
  assert (Hidx : exists nodes,
             index_of repr_container float_of_string mapping = Ok nodes
             /\ Forall (fun kn => parent_ok (n_parent (snd kn)) = true) nodes).
  { unfold well_shaped in Hw. unfold index_of.
    destruct (truthy mapping); cbn [negb orb] in *; [|exists []; now split].
    destruct mapping as [| | | | |items]; try discriminate. cbn [py_items bind].
    now apply build_nodes_ok. }
  destruct Hidx as (nodes & E & Hall). rewrite E. cbn [bind].
  pose proof (index_of_length _ _ _ _ E) as Hl.
  pose proof (collect_threads nodes (S (dict_size mapping)) (leaves nodes)
                ltac:(lia) []) as Hc.
  pose proof (collect_no_raise nodes (S (dict_size mapping)) (leaves nodes) Hall [])
    as Hn.
  destruct (collect nodes (S (dict_size mapping)) (leaves nodes) []) as [threads|e|].
  - now exists threads.
  - now elim (Hn e).
  - contradiction.
Qed.

Lemma well_shaped_never_raises_witness :
  well_shaped branch_mapping = true
  /\ exists threads, reconstruct_threads no_repr no_float branch_mapping = Ok threads.
Proof.
  split; [reflexivity|].
  apply (well_shaped_never_raises no_repr no_float branch_mapping). reflexivity.
Defined.

(** Every thread returned has a message, and every message of it has a
    truthy role. *)
Theorem threads_have_truthy_roles
  (repr_container : value -> string) (float_of_string : string -> option Z)
  (mapping : value) (threads : list (list message)) :
  reconstruct_threads repr_container float_of_string mapping = Ok threads ->
  forallb (fun t => negb (is_nil t) && forallb (fun msg => truthy (role msg)) t)
    threads = true.
Proof.
  intros H. apply reconstruct_ok_index in H as (nodes & _ & _ & ->).
  unfold threads_by. apply forallb_forall. intros t Hin.
  apply filter_In in Hin as [Hin Hne]. rewrite Hne. cbn [andb].
  apply in_map_iff in Hin as (leaf & <- & _). apply thread_by_roles.
Qed.

Lemma threads_have_truthy_roles_witness :
  forallb (fun t => negb (is_nil t) && forallb (fun msg => truthy (role msg)) t)
    [[mkMessage user ("q" ++ newline ++ "7") None; mkMessage assistant "" (Some 12)];
     [mkMessage user ("q" ++ newline ++ "7") None]] = true.
Proof.
  apply (threads_have_truthy_roles no_repr no_float branch_mapping). reflexivity.
Defined.

(** There are no more threads than nodes in the mapping, and no thread
    has more messages than the mapping has nodes. *)
Theorem threads_bounded
  (repr_container : value -> string) (float_of_string : string -> option Z)
  (mapping : value) (threads : list (list message)) :
  reconstruct_threads repr_container float_of_string mapping = Ok threads ->
  (length threads <= dict_size mapping)%nat
  /\ Forall (fun t => (length t <= dict_size mapping)%nat) threads.
Proof.
  intros H. apply reconstruct_ok_index in H as (nodes & _ & Hl & ->).
  unfold threads_by. split.
  - pose proof (filter_length_le (fun t : list message => negb (is_nil t))
                  (map (thread_by role_truthy nodes) (leaves nodes))) as H1.
    rewrite length_map in H1. unfold leaves in H1. rewrite length_map in H1.
    pose proof (filter_length_le
                  (fun kn : string * node => negb (truthy (n_children (snd kn)))) nodes).
    unfold leaves. lia.
  - apply Forall_forall. intros t Hin. apply filter_In in Hin as [Hin _].
    apply in_map_iff in Hin as (leaf & <- & _).
    pose proof (thread_by_length nodes role_truthy leaf). lia.
Qed.

Lemma threads_bounded_witness :
  (length [[mkMessage assistant "" None; mkMessage user "" None];
           [mkMessage user "" None; mkMessage assistant "" None]]
   <= dict_size cycle_mapping)%nat
  /\ Forall (fun t => (length t <= dict_size cycle_mapping)%nat)
       [[mkMessage assistant "" None; mkMessage user "" None];
        [mkMessage user "" None; mkMessage assistant "" None]].
Proof.
  apply (threads_bounded no_repr no_float cycle_mapping). reflexivity.
Defined.

(** The index has the ids of the mapping, in the order of the mapping,
    and each node records its own id. *)
Theorem index_keeps_keys
  (repr_container : value -> string) (float_of_string : string -> option Z)
  (items : list (string * value)) (nodes : list (string * node)) :
  NoDup (map fst items) ->
  index_of repr_container float_of_string (VDict items) = Ok nodes ->
  map fst nodes = map fst items
  /\ Forall (fun kn => n_id (snd kn) = fst kn) nodes.
Proof.
  intros Hnd H. unfold index_of in H.
  destruct items as [|item items'].
  { simpl in H. injection H as <-. split; constructor. }
  cbn [truthy negb py_items bind] in H. split.
  - exact (build_nodes_keys repr_container float_of_string (item :: items') [] nodes
             Hnd H).
  - apply (build_nodes_Forall repr_container float_of_string _ (item :: items'))
      with (acc := []); [|constructor | exact H].
    intros mid data n _ Hn. simpl. now apply build_node_id in Hn.
Qed.

Lemma index_keeps_keys_witness :
  map fst cycle_nodes = ["A"; "B"]%string
  /\ Forall (fun kn => n_id (snd kn) = fst kn) cycle_nodes.
Proof.
  apply (index_keeps_keys no_repr no_float
           [("A", obj [("parent", VStr "B");
                       ("message", obj [("author", obj [("role", VStr "user")])])]);
            ("B", obj [("parent", VStr "A");
                       ("message", obj [("author", obj [("role", VStr "assistant")])])])]%string).
  - repeat constructor; simpl; intuition discriminate.
  - reflexivity.
Defined.

(* ===================================================================== *)
(** ** The segments hold the caller's messages                            *)
(* ===================================================================== *)

Lemma map_snd_combine_tail {A : Type} (l : list A) :
  forall x, map snd (combine (x :: l) l) = l.
Proof.
  induction l as [|y l IH]; intros x; [reflexivity|].
  change (combine (x :: y :: l) (y :: l)) with ((x, y) :: combine (y :: l) l).
  cbn [map snd]. f_equal. apply IH.
Qed.

Section Sharing.

Variable h0 : heap.
Variable gap : Z.
Variable segments : nat.

Lemma seg_step_st_refs (hc hc' : heap) (current current' : nat)
  (st : list (list message) * list message) (rp : nat * nat) (done : list nat) :
  seg_inv h0 segments hc current st ->
  refs_inv segments hc current done ->
  seg_step_st gap segments current rp hc = Some (current', hc') ->
  refs_inv segments hc' current' (done ++ [snd rp]).
Proof.
  intros (_ & _ & _ & Hne & srefs0 & Hrl0 & Hfa & _ & _)
         (srefs & segs & cl & Hrl & Hsegs & Hcl & Hdone) Hstep.
  rewrite Hrl in Hrl0. injection Hrl0 as <-.
  unfold seg_step_st, bind_st, lift in Hstep.
  destruct (read_dict hc (fst rp)) as [pm|]; [|discriminate].
  destruct (read_dict hc (snd rp)) as [cm|]; [|discriminate].
  destruct (boundary gap pm cm).
  - unfold append, alloc in Hstep. rewrite Hrl in Hstep. injection Hstep as <- <-.
    set (h1 := update segments (OList (srefs ++ [current])) hc).
    exists (srefs ++ [current]), (segs ++ [cl]), [snd rp]. repeat split.
    + apply read_list_app. unfold h1. now apply read_list_update_eq with (items := srefs).
    + apply read_all_app.
      * apply read_all_mono with (rd := read_list hc); [|exact Hsegs].
        intros s its Hin Hs. apply read_list_app. unfold h1.
        rewrite read_list_update_ne; [exact Hs|].
        rewrite Forall_forall in Hfa. destruct (Hfa s Hin) as (_ & _ & ?). congruence.
      * simpl. rewrite (read_list_app h1 _ current cl); [reflexivity|].
        unfold h1. rewrite read_list_update_ne; [exact Hcl | exact Hne].
    + apply read_list_new.
    + rewrite concat_app. simpl. rewrite app_nil_r. now rewrite Hdone.
  - unfold append, ret in Hstep. rewrite Hcl in Hstep. injection Hstep as <- <-.
    exists srefs, segs, (cl ++ [snd rp]). repeat split.
    + rewrite read_list_update_ne; [exact Hrl | congruence].
    + apply read_all_mono with (rd := read_list hc); [|exact Hsegs].
      intros s its Hin Hs. rewrite read_list_update_ne; [exact Hs|].
      rewrite Forall_forall in Hfa. destruct (Hfa s Hin) as (_ & ? & _). congruence.
    + now apply read_list_update_eq with (items := cl).
    + now rewrite app_assoc, Hdone.
Qed.

Lemma fold_st_refs (rps : list (nat * nat)) (mps : list (message * message)) :
  Forall2 (denotes h0) rps mps ->
  forall hc current st done,
    seg_inv h0 segments hc current st ->
    refs_inv segments hc current done ->
    exists current' hc',
      fold_st (seg_step_st gap segments) rps current hc = Some (current', hc')
      /\ seg_inv h0 segments hc' current' (fold_left (seg_step gap) mps st)
      /\ refs_inv segments hc' current' (done ++ map snd rps).
Proof.
  induction 1 as [|rp mp rps mps Hd _ IH]; intros hc current st done Hinv Hrefs.
  - exists current, hc. split; [reflexivity|]. split; [exact Hinv|].
    simpl. now rewrite app_nil_r.
  - destruct (seg_step_st_inv h0 gap segments hc current st rp mp Hinv Hd)
      as (c1 & h1 & E1 & Hinv1).
    pose proof (seg_step_st_refs hc h1 current c1 st rp done Hinv Hrefs E1) as Hrefs1.
    destruct (IH h1 c1 _ _ Hinv1 Hrefs1) as (c2 & h2 & E2 & Hinv2 & Hrefs2).
    exists c2, h2. split; [|split; [exact Hinv2|]].
    + cbn [fold_st]. unfold bind_st. now rewrite E1.
    + simpl. now rewrite <- app_assoc in Hrefs2.
Qed.

End Sharing.

Lemma ordered_refs_perm (h : heap) (items : list nat) (ms : list message) :
  read_all (read_dict h) items = Some ms ->
  Permutation
    (map snd (sorted (fun kr => sort_key (fst kr)) (combine ms items))) items.
Proof.
  intros H. apply read_all_Forall2 in H.
  destruct (Forall2_combine_fst _ items ms H) as (_ & H2 & _).
  rewrite <- H2 at 2. apply Permutation_map, sorted_perm.
Qed.

(** The segments hold the caller's message objects themselves: the
    references of the returned segments, put end to end, are the
    references of the caller's list in another order; no message is
    copied. *)
Theorem segments_share_messages
  (h : heap) (messages : nat) (items : list nat) (ms : list message)
  (gap_seconds : Z) :
  read_list h messages = Some items ->
  read_all (read_dict h) items = Some ms ->
  exists r h' srefs segs,
    split_segments_st messages gap_seconds h = Some (r, h')
    /\ read_list h' r = Some srefs
    /\ read_all (read_list h') srefs = Some segs
    /\ Permutation (concat segs) items.
Proof.
  intros Erl Hv.
  unfold split_segments_st, bind_st, lift. rewrite Erl.
  destruct items as [|i0 items'].
  - unfold alloc. exists (length h), (h ++ [OList []]), [], [].
    split; [reflexivity|]. split; [apply read_list_new|].
    split; [reflexivity | constructor].
  - rewrite Hv. pose proof (ordered_copy h _ ms Hv) as Hord.
    pose proof (ordered_refs_perm h _ ms Hv) as Hperm.
    destruct ms as [|m0 ms']; [now apply read_all_length in Hv|].
    cbv zeta.
    set (ordered := map snd (sorted (fun kr => sort_key (fst kr))
                               (combine (m0 :: ms') (i0 :: items')))) in *.
    clearbody ordered.
    destruct (sorted sort_key (m0 :: ms')) as [|mfirst mrest] eqn:Es;
      [now elim (sorted_nonempty m0 ms')|].
    pose proof (Forall2_combine_tail _ _ _ Hord) as Hpairs.
    inversion Hord as [|first mf rest mr Hfirst Hrest Eo Em]. subst ordered mf mr.
    clear Hord. cbn [tl] in Hpairs.
    unfold alloc at 1 2 3. cbn beta iota.
    set (h1 := h ++ [OList (first :: rest)]).
    set (h2 := h1 ++ [OList []]).
    set (h3 := h2 ++ [OList [first]]).
    assert (Hinv : seg_inv h (length h1) h3 (length h2) ([], [mfirst])).
    { unfold h3, h2, h1. repeat split.
      - exists [OList (first :: rest); OList []; OList [first]].
        now rewrite <- !app_assoc.
      - rewrite length_app. lia.
      - rewrite !length_app. lia.
      - rewrite !length_app. simpl. lia.
      - exists []. repeat split.
        + apply read_list_app, read_list_new.
        + constructor.
        + unfold view_list. rewrite read_list_new. simpl.
          now rewrite (read_dict_app _ _ _ _
                         (read_dict_app _ _ _ _ (read_dict_app _ _ _ _ Hfirst))). }
    assert (Hrefs : refs_inv (length h1) h3 (length h2) [first]).
    { exists [], [], [first]. unfold h3. repeat split.
      - unfold h2. apply read_list_app, read_list_new.
      - apply read_list_new. }
    destruct (fold_st_refs h gap_seconds (length h1) _ _ Hpairs h3 (length h2) _ _
                Hinv Hrefs) as (c' & hc' & Efold & Hinv' & Hrefs').
    rewrite Efold. rewrite map_snd_combine_tail in Hrefs'.
    destruct Hinv' as (_ & _ & _ & Hne & srefs0 & Hrl0 & Hfa & _ & _).
    destruct Hrefs' as (srefs & segs & cl & Hrl & Hsegs & Hcl & Hdone).
    rewrite Hrl in Hrl0. injection Hrl0 as <-.
    rewrite Hcl. simpl in Hdone.
    destruct cl as [|l0 cl'].
    + unfold ret. exists (length h1), hc', srefs, segs.
      split; [reflexivity|]. split; [exact Hrl|]. split; [exact Hsegs|].
      rewrite app_nil_r in Hdone. now rewrite Hdone.
    + unfold append, ret. rewrite Hrl.
      exists (length h1), (update (length h1) (OList (srefs ++ [c'])) hc'),
        (srefs ++ [c']), (segs ++ [l0 :: cl']).
      split; [reflexivity|].
      split; [now apply read_list_update_eq with (items := srefs)|].
      split.
      * apply read_all_app.
        -- apply read_all_mono with (rd := read_list hc'); [|exact Hsegs].
           intros s its Hin Hs. rewrite read_list_update_ne; [exact Hs|].
           rewrite Forall_forall in Hfa. destruct (Hfa s Hin) as (_ & _ & ?).
           congruence.
        -- simpl. rewrite read_list_update_ne; [now rewrite Hcl | exact Hne].
      * rewrite concat_app. simpl. rewrite app_nil_r. now rewrite Hdone.
Qed.

Lemma segments_share_messages_witness :
  read_list sample_heap 3 = Some [0; 1; 2]%nat
  /\ exists r h' srefs segs,
       split_segments_st 3 1800 sample_heap = Some (r, h')
       /\ read_list h' r = Some srefs
       /\ read_all (read_list h') srefs = Some segs
       /\ Permutation (concat segs) [0; 1; 2]%nat.
Proof.
  split; [reflexivity|].
  apply (segments_share_messages sample_heap 3 [0; 1; 2]%nat [u 5; a 6; u 0] 1800);
    reflexivity.
Defined.

(* ===================================================================== *)
(** ** The order of floats                                                *)
(* ===================================================================== *)

Module Binary64Facts.

Import Binary64.

Ltac float_cases :=
  repeat match goal with
         | x : spec_float |- _ => destruct x as [[]|[]| |[] ? ?]
         end;
  cbn [SFcompare is_nan negb]; try discriminate; try reflexivity; try tauto.

Ltac compare_cases :=
  repeat match goal with
         | |- context [Z.compare ?a ?b] => destruct (Z.compare_spec a b)
         | |- context [Pos.compare_cont Eq ?a ?b] =>
             change (Pos.compare_cont Eq a b) with (Pos.compare a b);
             destruct (Pos.compare_spec a b)
         end;
  cbn [CompOpp]; subst; try discriminate; try reflexivity; try tauto; try lia.

Lemma SFltb_asym (a b : spec_float) : SFltb a b = true -> SFltb b a = false.
Proof.
  unfold SFltb. float_cases; compare_cases.
Qed.

Lemma SFltb_negtrans (z y x : spec_float) :
  is_nan y = false -> SFltb z x = true -> SFltb z y = true \/ SFltb y x = true.
Proof.
  unfold SFltb. float_cases; compare_cases.
Qed.

Lemma SFltb_eqb (y x k : spec_float) :
  SFltb y x = true -> SFeqb x k = true -> SFeqb y k = false.
Proof.
  unfold SFltb, SFeqb. float_cases; compare_cases.
Qed.

(** *** The loop and its recursive form *)

Section Loop64.

Variable gap : Z.

Lemma loop_chunks (rest : list message) :
  forall prev segments current,
    close_segments
      (fold_left (seg_step gap) (combine (prev :: rest) rest)
         (segments, current ++ [prev]))
    = segments ++ (let (s, more) := chunks gap prev rest in
                   ((current ++ [prev]) ++ s) :: more).
Proof.
  induction rest as [|cur rest' IH]; intros prev segments current.
  - simpl. unfold close_segments; simpl.
    destruct (current ++ [prev]) eqn:E.
    + destruct current; discriminate.
    + now rewrite app_nil_r.
  - change (combine (prev :: cur :: rest') (cur :: rest'))
      with ((prev, cur) :: combine (cur :: rest') rest').
    cbn [fold_left seg_step chunks].
    destruct (boundary gap prev cur).
    + pose proof (IH cur (segments ++ [current ++ [prev]]) []) as H.
      cbn [app] in H. rewrite H.
      destruct (chunks gap cur rest') as [s more]. simpl.
      now rewrite app_nil_r, <- app_assoc.
    + rewrite (IH cur segments (current ++ [prev])).
      destruct (chunks gap cur rest') as [s more].
      now rewrite <- !app_assoc.
Qed.

Lemma split_segments_chunks (srt : list message -> list message)
  (messages : list message) :
  messages <> [] ->
  split_segments srt messages gap = segments_of gap (srt messages).
Proof.
  intros Hne. unfold split_segments.
  destruct messages as [|m ms]; [now elim Hne|].
  destruct (srt (m :: ms)) as [|first rest]; [reflexivity|].
  pose proof (loop_chunks rest first [] []) as H.
  cbn [app] in H. unfold close_segments in H.
  destruct (fold_left (seg_step gap) (combine (first :: rest) rest) ([], [first]))
    as [segments current].
  cbn [fst snd] in H. unfold segments_of.
  destruct (chunks gap first rest) as [s more].
  destruct current; exact H.
Qed.

Lemma chunks_concat (rest : list message) :
  forall prev, let (s, more) := chunks gap prev rest in s ++ concat more = rest.
Proof.
  induction rest as [|cur rest' IH]; intros prev; simpl; [reflexivity|].
  specialize (IH cur). destruct (chunks gap cur rest') as [s more].
  destruct (boundary gap prev cur); simpl; now rewrite IH.
Qed.

Lemma segments_concat (l : list message) : concat (segments_of gap l) = l.
Proof.
  destruct l as [|first rest]; [reflexivity|]. unfold segments_of.
  pose proof (chunks_concat rest first) as H.
  destruct (chunks gap first rest) as [s more]. simpl. now rewrite H.
Qed.

Lemma chunks_starts (rest : list message) :
  forall prev,
    let (s, more) := chunks gap prev rest in
    map (fun _ => false) s ++ segment_starts more
    = map (boundary_pair gap) (combine (prev :: rest) rest).
Proof.
  induction rest as [|cur rest' IH]; intros prev; [reflexivity|].
  change (combine (prev :: cur :: rest') (cur :: rest'))
    with ((prev, cur) :: combine (cur :: rest') rest').
  cbn [chunks map]. specialize (IH cur).
  destruct (chunks gap cur rest') as [s more].
  rewrite <- IH. unfold boundary_pair. cbn [fst snd].
  destruct (boundary gap prev cur); reflexivity.
Qed.

Lemma segments_starts (first : message) (rest : list message) :
  segment_starts (segments_of gap (first :: rest))
  = true :: map (boundary_pair gap) (combine (first :: rest) rest).
Proof.
  unfold segments_of. pose proof (chunks_starts rest first) as H.
  destruct (chunks gap first rest) as [s more]. rewrite <- H. reflexivity.
Qed.

Lemma boundary_at (l1 : list message) :
  forall first rest prev cur l2,
    first :: rest = l1 ++ prev :: cur :: l2 ->
    nth_error (map (boundary_pair gap) (combine (first :: rest) rest)) (length l1)
    = Some (boundary gap prev cur).
Proof.
  induction l1 as [|x l1 IH]; intros first rest prev cur l2 E.
  - simpl in E. injection E as -> ->. reflexivity.
  - simpl in E. injection E as -> ->.
    destruct l1 as [|y l1'].
    + simpl. reflexivity.
    + change (combine (x :: (y :: l1') ++ prev :: cur :: l2) ((y :: l1') ++ prev :: cur :: l2))
        with ((x, y) :: combine (y :: l1' ++ prev :: cur :: l2) (l1' ++ prev :: cur :: l2)).
      cbn [map length nth_error].
      apply (IH y (l1' ++ prev :: cur :: l2) prev cur l2). reflexivity.
Qed.

(** A segment begins at the second message of a consecutive pair of the
    sorted list exactly when the pair is a boundary, whatever the sort
    made of the list. *)
Lemma segment_start_boundary (srt : list message -> list message)
  (messages l1 l2 : list message) (prev cur : message) :
  messages <> [] ->
  srt messages = l1 ++ prev :: cur :: l2 ->
  new_segment_at (split_segments srt messages gap) (S (length l1))
  = Some (boundary gap prev cur).
Proof.
  intros Hne E. rewrite split_segments_chunks by exact Hne. unfold new_segment_at.
  destruct (srt messages) as [|first rest] eqn:Es.
  - destruct l1; discriminate.
  - rewrite segments_starts. cbn [nth_error].
    now apply boundary_at with (l2 := l2).
Qed.

Lemma segments_concat_sorted (srt : list message -> list message)
  (messages : list message) :
  messages <> [] ->
  concat (split_segments srt messages gap) = srt messages.
Proof.
  intros Hne. rewrite split_segments_chunks by exact Hne. apply segments_concat.
Qed.

Lemma chunks_whole (rest : list message) :
  forall prev s more,
    chunks gap prev rest = (s, more) ->
    chunks gap prev s = (s, [])
    /\ Forall (fun seg => exists f t, seg = f :: t /\ chunks gap f t = (t, [])) more.
Proof.
  induction rest as [|cur rest' IH]; intros prev s more E; simpl in E.
  - injection E as <- <-. split; [reflexivity | constructor].
  - destruct (chunks gap cur rest') as [s' more'] eqn:Ec.
    destruct (IH cur s' more' Ec) as [Hs Hmore].
    destruct (boundary gap prev cur) eqn:Eb; injection E as <- <-.
    + split; [reflexivity|]. constructor; [|exact Hmore]. now exists cur, s'.
    + split; [|exact Hmore]. simpl. now rewrite Hs, Eb.
Qed.

Lemma whole_no_boundary (t : list message) :
  forall f l1 l2 p c,
    chunks gap f t = (t, []) ->
    f :: t = l1 ++ p :: c :: l2 ->
    boundary gap p c = false.
Proof.
  induction t as [|x t IH]; intros f l1 l2 p c Hc E.
  - destruct l1 as [|? [|? ?]]; discriminate.
  - cbn [chunks] in Hc. destruct (chunks gap x t) as [s more] eqn:Ex.
    destruct (boundary gap f x) eqn:Eb; [discriminate|].
    injection Hc as -> ->.
    destruct l1 as [|y l1].
    + simpl in E. injection E as -> -> _. exact Eb.
    + simpl in E. injection E as -> E. now apply (IH x l1 l2 p c).
Qed.

Lemma chunks_cut (rest : list message) :
  forall prev s more A s1 x y s2 B,
    chunks gap prev rest = (s, more) ->
    (prev :: s) :: more = A ++ (s1 ++ [x]) :: (y :: s2) :: B ->
    boundary gap x y = true.
Proof.
  induction rest as [|cur rest' IH]; intros prev s more A s1 x y s2 B Hc E.
  - simpl in Hc. injection Hc as <- <-.
    destruct A as [|? [|? ?]]; discriminate.
  - cbn [chunks] in Hc. destruct (chunks gap cur rest') as [s' more'] eqn:Ec.
    destruct (boundary gap prev cur) eqn:Eb; injection Hc as <- <-.
    + destruct A as [|a0 A'].
      * simpl in E. injection E as E1 E2 _ _.
        destruct s1 as [|? [|? ?]]; try discriminate.
        injection E1 as <-. subst y. exact Eb.
      * simpl in E. injection E as _ E.
        now apply (IH cur s' more' A' s1 x y s2 B Ec).
    + destruct A as [|a0 A'].
      * simpl in E. injection E as E1 E2.
        destruct s1 as [|z s1']; [discriminate|].
        simpl in E1. injection E1 as <- E1.
        apply (IH cur s' more' [] s1' x y s2 B Ec).
        simpl. now rewrite E1, E2.
      * simpl in E. injection E as E0 E.
        apply (IH cur s' more' ((cur :: s') :: A') s1 x y s2 B Ec).
        simpl. now rewrite E.
Qed.

End Loop64.

(** *** The stable sort on keys without not-a-number *)

Section StableSort64.

Context {A : Type}.
Variable key : A -> spec_float.

Lemma insert_lt_perm (x : A) (l : list A) :
  Permutation (insert_lt key x l) (x :: l).
Proof.
  induction l as [|y l IH]; simpl; [reflexivity|].
  destruct (SFltb (key y) (key x)); [|reflexivity].
  rewrite IH. apply perm_swap.
Qed.

Lemma stable_sort_perm (l : list A) : Permutation (stable_sort key l) l.
Proof.
  induction l as [|x l IH]; simpl; [constructor|].
  rewrite insert_lt_perm. now constructor.
Qed.

Lemma insert_lt_ordered (x : A) (l : list A) :
  is_nan (key x) = false ->
  Forall (fun y => is_nan (key y) = false) l ->
  StronglySorted (fun a b => SFltb (key b) (key a) = false) l ->
  StronglySorted (fun a b => SFltb (key b) (key a) = false) (insert_lt key x l).
Proof.
  intros Hx Hl Hs. induction Hs as [|y l Hs IH Hy]; simpl.
  - repeat constructor.
  - inversion Hl as [|? ? Hny Hl']; subst.
    destruct (SFltb (key y) (key x)) eqn:E.
    + constructor; [now apply IH|].
      eapply Permutation_Forall; [symmetry; apply insert_lt_perm|].
      constructor; [now apply SFltb_asym | exact Hy].
    + constructor; [now constructor|].
      constructor; [exact E|].
      rewrite Forall_forall in Hy |- *. intros z Hz.
      destruct (SFltb (key z) (key x)) eqn:Ez; [|reflexivity].
      destruct (SFltb_negtrans _ (key y) _ Hny Ez) as [H | H].
      * rewrite (Hy z Hz) in H. discriminate.
      * rewrite E in H. discriminate.
Qed.

Lemma stable_sort_ordered (l : list A) :
  Forall (fun y => is_nan (key y) = false) l ->
  StronglySorted (fun a b => SFltb (key b) (key a) = false) (stable_sort key l).
Proof.
  induction 1 as [|x l Hx Hl IH]; simpl; [constructor|].
  apply insert_lt_ordered; [exact Hx | | exact IH].
  eapply Permutation_Forall; [symmetry; apply stable_sort_perm | exact Hl].
Qed.

Lemma filter_insert_lt (k : spec_float) (x : A) (l : list A) :
  filter (fun m => SFeqb (key m) k) (insert_lt key x l)
  = filter (fun m => SFeqb (key m) k) (x :: l).
Proof.
  induction l as [|y l IH]; [reflexivity|].
  cbn [insert_lt]. destruct (SFltb (key y) (key x)) eqn:E; [|reflexivity].
  cbn [filter] in IH |- *. rewrite IH.
  destruct (SFeqb (key x) k) eqn:Ex; [|reflexivity].
  now rewrite (SFltb_eqb _ _ _ E Ex).
Qed.

Lemma filter_stable_sort (k : spec_float) (l : list A) :
  filter (fun m => SFeqb (key m) k) (stable_sort key l)
  = filter (fun m => SFeqb (key m) k) l.
Proof.
  induction l as [|x l IH]; [reflexivity|].
  cbn [stable_sort]. rewrite filter_insert_lt. cbn [filter]. now rewrite IH.
Qed.

End StableSort64.

Lemma no_nan_key_Forall (l : list message) :
  no_nan_key l = true -> Forall (fun m => is_nan (sort_key m) = false) l.
Proof.
  unfold no_nan_key. intros H. apply Forall_forall. intros m Hm.
  rewrite forallb_forall in H. specialize (H m Hm). now apply negb_true_iff in H.
Qed.

Lemma compare_gt_not_eq (x : spec_float) (n : Z) :
  compare_float_int x n = Some Eq -> float_gt_int x n = false.
Proof. unfold float_gt_int. now intros ->. Qed.

(** *** Properties of [split_segments] on float times *)

Example rounded_difference :
  fsub f_1837_9 f_37_9 = f_1800
  /\ compare_float_int (fsub f_1837_9 f_37_9) 1800 = Some Eq.
Proof. split; reflexivity. Qed.

Example one_segment_at_rounded_gap :
  split_segments sorted_by_time [at_time user f_37_9; at_time user f_1837_9] 1800
  = [[at_time user f_37_9; at_time user f_1837_9]].
Proof. reflexivity. Qed.

(** A difference that rounds up: the times 1.0 and 2^53 + 4 are
    2^53 + 3 apart, the float difference is 2^53 + 4, and the pair is
    split at the threshold 2^53 + 3. *)
Example rounded_up_difference :
  compare_float_int (fsub f_2p53_4 f_1) (2 ^ 53 + 3) = Some Gt
  /\ split_segments sorted_by_time [at_time user f_1; at_time user f_2p53_4] (2 ^ 53 + 3)
     = [[at_time user f_1]; [at_time user f_2p53_4]].
Proof. split; reflexivity. Qed.

(** C3, as stated, fails: a message with a negative time is placed before
    a message without a time, whose key is 0. *)
Lemma absent_time_after_negative_time :
  time (untimed user) = None
  /\ time (at_time user f_minus_5) = Some f_minus_5
  /\ SFltb f_minus_5 (S754_zero false) = true
  /\ no_nan_key [untimed user; at_time user f_minus_5] = true
  /\ stable_sort sort_key [untimed user; at_time user f_minus_5]
     = [at_time user f_minus_5; untimed user]
  /\ split_segments sorted_by_time [untimed user; at_time user f_minus_5] 1800
     = [[at_time user f_minus_5; untimed user]].
Proof. repeat split. Qed.

(** C3, amended.  The messages are sorted by the key [time or 0], an
    absent time counting as 0.  When no time is not-a-number, the
    segments put end to end are the input in the stable non-decreasing
    order of that key: a message without a time never comes after a
    message with a time above 0, nor before one with a time below 0. *)
Theorem absent_time_sorts_as_zero
  (srt : list message -> list message) (messages : list message) (gap_seconds : Z) :
  sorts_stably srt ->
  no_nan_key messages = true ->
  concat (split_segments srt messages gap_seconds) = stable_sort sort_key messages
  /\ Permutation (concat (split_segments srt messages gap_seconds)) messages
  /\ StronglySorted not_above (concat (split_segments srt messages gap_seconds))
  /\ forall l1 x l2 y,
       concat (split_segments srt messages gap_seconds) = l1 ++ x :: l2 ->
       In y l2 ->
       (time y = None ->
        forall t, time x = Some t -> SFltb (S754_zero false) t = false)
       /\ (time x = None ->
           forall t, time y = Some t -> SFltb t (S754_zero false) = false).
Proof.
  intros Hsrt Hnan.
  assert (E : concat (split_segments srt messages gap_seconds)
              = stable_sort sort_key messages).
  { destruct messages as [|m ms]; [reflexivity|].
    rewrite segments_concat_sorted by discriminate. now apply Hsrt. }
  assert (Hs : StronglySorted not_above (stable_sort sort_key messages)).
  { apply stable_sort_ordered. now apply no_nan_key_Forall. }
  rewrite E. split; [reflexivity|]. split; [apply stable_sort_perm|].
  split; [exact Hs|].
  intros l1 x l2 y El Hy. rewrite El in Hs.
  assert (Hxy : not_above x y).
  { clear - Hs Hy. induction l1 as [|z l1 IH]; simpl in Hs.
    - inversion Hs as [|? ? _ Hx]; subst. rewrite Forall_forall in Hx. now apply Hx.
    - inversion Hs; subst. now apply IH. }
  unfold not_above, sort_key in Hxy. split.
  - intros Hny t Hx. rewrite Hny, Hx in Hxy.
    destruct t as [[]|[]| |[] ? ?]; cbn in Hxy |- *; congruence.
  - intros Hnx t Hyt. rewrite Hnx, Hyt in Hxy.
    destruct t as [[]|[]| |[] ? ?]; cbn in Hxy |- *; congruence.
Qed.

Lemma sorted_by_time_stable : sorts_stably sorted_by_time.
Proof. intros l _. reflexivity. Qed.

Lemma absent_time_sorts_as_zero_witness :
  concat (split_segments sorted_by_time
            [at_time user f_7; untimed user; at_time assistant f_minus_5;
             at_time user f_3_5] 1800)
  = [at_time assistant f_minus_5; untimed user; at_time user f_3_5; at_time user f_7]
  /\ StronglySorted not_above
       (concat (split_segments sorted_by_time
                  [at_time user f_7; untimed user; at_time assistant f_minus_5;
                   at_time user f_3_5] 1800)).
Proof.
  destruct (absent_time_sorts_as_zero sorted_by_time
              [at_time user f_7; untimed user; at_time assistant f_minus_5;
               at_time user f_3_5] 1800 sorted_by_time_stable eq_refl)
    as (E & _ & Hs & _).
  split; [rewrite E; reflexivity | exact Hs].
Defined.

(** C4.  The gap test is strict.  For two consecutive messages of the
    sorted list with the same role and known times, where [d] is the float
    [cur.time - prev.time]: when [d] equals [gap_seconds] they stay in one
    segment, when [d] is greater a new segment starts at the second. *)
Theorem gap_comparison_strict
  (srt : list message -> list message) (messages l1 l2 : list message)
  (prev cur : message) (tp tc : spec_float) (gap_seconds : Z) :
  messages <> [] ->
  srt messages = l1 ++ prev :: cur :: l2 ->
  time prev = Some tp ->
  time cur = Some tc ->
  py_eq (role prev) (role cur) = true ->
  (compare_float_int (fsub tc tp) gap_seconds = Some Eq ->
   new_segment_at (split_segments srt messages gap_seconds) (S (length l1)) = Some false)
  /\ (compare_float_int (fsub tc tp) gap_seconds = Some Gt ->
      new_segment_at (split_segments srt messages gap_seconds) (S (length l1)) = Some true).
Proof.
  intros Hne E Hp Hc Hr.
  rewrite (segment_start_boundary gap_seconds srt messages l1 l2 prev cur Hne E).
  unfold boundary, time_gap, role_change, float_gt_int. rewrite Hp, Hc, Hr. simpl.
  split; intros ->; reflexivity.
Qed.

Lemma gap_comparison_strict_witness :
  new_segment_at
    (split_segments sorted_by_time [at_time user f_37_9; at_time user f_1837_9] 1800) 1
  = Some false
  /\ new_segment_at
       (split_segments sorted_by_time [at_time user f_10; at_time user f_1811] 1800) 1
     = Some true.
Proof.
  split.
  - apply (gap_comparison_strict sorted_by_time
             [at_time user f_37_9; at_time user f_1837_9] [] []
             (at_time user f_37_9) (at_time user f_1837_9) f_37_9 f_1837_9 1800);
      try reflexivity. discriminate.
  - apply (gap_comparison_strict sorted_by_time
             [at_time user f_10; at_time user f_1811] [] []
             (at_time user f_10) (at_time user f_1811) f_10 f_1811 1800);
      try reflexivity. discriminate.
Defined.

(** Inside a segment, two consecutive messages have equal roles, and
    when both times are known the float [cur.time - prev.time] is not
    greater than [gap_seconds]. *)
Theorem segment_has_no_boundary
  (srt : list message -> list message) (messages S0 l1 l2 : list message)
  (p c : message) (gap_seconds : Z) :
  In S0 (split_segments srt messages gap_seconds) ->
  S0 = l1 ++ p :: c :: l2 ->
  py_eq (role p) (role c) = true
  /\ forall tp tc,
       time p = Some tp -> time c = Some tc ->
       float_gt_int (fsub tc tp) gap_seconds = false.
Proof.
  intros Hin E.
  assert (Hb : boundary gap_seconds p c = false).
  { destruct messages as [|m ms]; [contradiction|].
    rewrite split_segments_chunks in Hin by discriminate.
    destruct (srt (m :: ms)) as [|first rest]; [contradiction|].
    unfold segments_of in Hin.
    destruct (chunks gap_seconds first rest) as [s more] eqn:Ec.
    apply chunks_whole in Ec as [H0 Hmore]. destruct Hin as [<- | Hin].
    - now apply (whole_no_boundary gap_seconds s first l1 l2).
    - rewrite Forall_forall in Hmore. destruct (Hmore S0 Hin) as (f & t & -> & Ht).
      now apply (whole_no_boundary gap_seconds t f l1 l2). }
  unfold boundary in Hb. apply orb_false_iff in Hb as [Hg Hr].
  split.
  - unfold role_change in Hr. now apply negb_false_iff in Hr.
  - intros tp tc Hp Hc. unfold time_gap in Hg. now rewrite Hp, Hc in Hg.
Qed.

Lemma segment_has_no_boundary_witness :
  In [at_time user f_37_9; at_time user f_1837_9]
     (split_segments sorted_by_time
        [at_time user f_1837_9; at_time assistant f_10; at_time user f_37_9] 1800)
  /\ py_eq (role (at_time user f_37_9)) (role (at_time user f_1837_9)) = true
  /\ float_gt_int (fsub f_1837_9 f_37_9) 1800 = false.
Proof.
  split; [right; left; reflexivity|].
  destruct (segment_has_no_boundary sorted_by_time
              [at_time user f_1837_9; at_time assistant f_10; at_time user f_37_9]
              [at_time user f_37_9; at_time user f_1837_9] [] []
              (at_time user f_37_9) (at_time user f_1837_9) 1800)
    as [Hr Ht]; [right; left; reflexivity | reflexivity |].
  split; [exact Hr | exact (Ht f_37_9 f_1837_9 eq_refl eq_refl)].
Defined.

(** Segments are maximal: where one segment ends and the next begins, the
    roles differ, or both times are known and the float
    [cur.time - prev.time] is greater than [gap_seconds]. *)
Theorem adjacent_segments_boundary
  (srt : list message -> list message) (messages s1 s2 : list message)
  (A B : list (list message)) (x y : message) (gap_seconds : Z) :
  split_segments srt messages gap_seconds = A ++ (s1 ++ [x]) :: (y :: s2) :: B ->
  boundary gap_seconds x y = true.
Proof.
  destruct messages as [|m ms].
  - destruct A; discriminate.
  - rewrite split_segments_chunks by discriminate.
    destruct (srt (m :: ms)) as [|first rest].
    + destruct A; discriminate.
    + unfold segments_of. destruct (chunks gap_seconds first rest) as [s more] eqn:Ec.
      intros E. now apply (chunks_cut gap_seconds rest first s more A s1 x y s2 B).
Qed.

Lemma adjacent_segments_boundary_witness :
  split_segments sorted_by_time
    [at_time user f_1837_9; at_time assistant f_10; at_time user f_10] 1800
  = [[at_time assistant f_10]] ++ ([] ++ [at_time user f_10])
      :: (at_time user f_1837_9 :: []) :: []
  /\ boundary 1800 (at_time user f_10) (at_time user f_1837_9) = true.
Proof.
  split; [reflexivity|].
  apply (adjacent_segments_boundary sorted_by_time
           [at_time user f_1837_9; at_time assistant f_10; at_time user f_10]
           [] [] [[at_time assistant f_10]] []
           (at_time user f_10) (at_time user f_1837_9) 1800).
  reflexivity.
Defined.

(** When no time is not-a-number, messages with equal keys, among them
    all those without a time, come out in the order they came in. *)
Theorem equal_keys_keep_order
  (srt : list message -> list message) (messages : list message)
  (gap_seconds : Z) (k : spec_float) :
  sorts_stably srt ->
  no_nan_key messages = true ->
  filter (fun m => SFeqb (sort_key m) k)
    (concat (split_segments srt messages gap_seconds))
  = filter (fun m => SFeqb (sort_key m) k) messages.
Proof.
  intros Hsrt Hnan. destruct messages as [|m ms]; [reflexivity|].
  rewrite segments_concat_sorted by discriminate.
  rewrite (Hsrt _ Hnan). apply filter_stable_sort.
Qed.

Lemma equal_keys_keep_order_witness :
  filter (fun m => SFeqb (sort_key m) (S754_zero false))
    (concat (split_segments sorted_by_time
               [untimed user; at_time user f_7; untimed assistant;
                at_time user (S754_zero true)] 1800))
  = [untimed user; untimed assistant; at_time user (S754_zero true)].
Proof.
  rewrite (equal_keys_keep_order sorted_by_time
             [untimed user; at_time user f_7; untimed assistant;
              at_time user (S754_zero true)] 1800 (S754_zero false)
             sorted_by_time_stable eq_refl).
  reflexivity.
Defined.

End Binary64Facts.
